(** * Panchayat election: a shallow embedding of [12-panchayat-election.js]

    The module exports [createElection] (a closure over three pieces of
    private state), [createVoteValidator], [countVotesInRegions] and
    [tallyPure].  JavaScript values are embedded as a tree-shaped datatype,
    the closure as a record of its captured variables threaded through every
    method, a thrown [TypeError] as a constructor of the result type.

    Conventions of the embedding:
    - a number is [NaN] or an integer, and arithmetic on integers is exact.
      This is the arithmetic of the language on the safe integers (absolute
      value at most 2^53 - 1, [safe_integer]), which print in plain decimal
      and add without rounding; statements that depend on a sum or on the
      printed form of a number say so in a hypothesis.  Fractions and the
      infinities are not values of the embedding;
    - an object is the ordered list of its own enumerable properties, with
      data values only: no symbols, accessors or functions.  What an object
      inherits from [Object.prototype] is kept where the source reaches it:
      a method call [o.hasOwnProperty(k)] looks the method up on [o] first
      and throws when [o] owns a property of that name
      ([call_hasOwnProperty], [votes_hasOwnProperty]); an assignment to
      the key [__proto__] of [votes] goes to the inherited accessor and
      creates nothing ([votes_assign]); a read of [votes] at a key it does
      not own yields the inherited member ([Inherited]).  A read [o[k]] of
      a value of type [value] is a read of own properties ([get]), and the
      conversions to a string or a number take the inherited [toString];
      statements about [tallyPure], [castVote] and the validator that
      depend on these name the values they cover ([Object_prototype_keys],
      [numeric], [prints_exactly]);
    - a candidate is an object with three string properties, as
      documented; the checks the source makes on the candidate array
      itself are kept;
    - [Array.prototype.sort] is the engine's: [getResults] takes it as an
      argument, and statements assume of it what the language guarantees
      ([conforming]); insertion sort is one such engine;
    - callbacks are total functions on values, without effect on the
      session. *)

From Stdlib Require Import ZArith String Ascii List.
From Stdlib Require Import DecimalString.
From stdpp Require Import gmap strings list fin_maps sorting.

Set Warnings "-register-all".
Local Open Scope Z_scope.
Local Open Scope string_scope.
Local Open Scope list_scope.

(** ** Values *)

Inductive number : Type :=
| NaN
| Num (z : Z).

Inductive value : Type :=
| VUndefined
| VNull
| VBool (b : bool)
| VNumber (n : number)
| VString (s : string)
| VObject (props : list (string * value))
| VArray (elems : list value).

Inductive exception : Type :=
| TypeError.

(** The outcome of a call that may throw. *)
Inductive completion (A : Type) : Type :=
| Normal (a : A)
| Throw (e : exception).

Arguments Normal {A} a.
Arguments Throw {A} e.

Definition zero : value := VNumber (Num 0).
Definition one : value := VNumber (Num 1).

(** [typeof v], as the string the operator yields. *)
Definition typeof (v : value) : string :=
  match v with
  | VUndefined => "undefined"
  | VNull => "object"
  | VBool _ => "boolean"
  | VNumber _ => "number"
  | VString _ => "string"
  | VObject _ => "object"
  | VArray _ => "object"
  end.

(** ToBoolean. *)
Definition truthy (v : value) : bool :=
  match v with
  | VUndefined | VNull => false
  | VBool b => b
  | VNumber NaN => false
  | VNumber (Num z) => negb (z =? 0)%Z
  | VString s => negb (String.eqb s "")
  | VObject _ | VArray _ => true
  end.

(** [a || b] *)
Definition js_or (a b : value) : value := if truthy a then a else b.

(** [v == null] *)
Definition loose_eq_null (v : value) : bool :=
  match v with
  | VUndefined | VNull => true
  | _ => false
  end.

(** ** Numbers and strings *)

(** Number::toString, as it is on [NaN] and on the safe integers, which
    print in plain decimal. *)
Definition number_to_string (n : number) : string :=
  match n with
  | NaN => "NaN"
  | Num z => NilZero.string_of_int (Z.to_int z)
  end.

Definition is_whitespace (c : ascii) : bool :=
  let n := nat_of_ascii c in
  (Nat.eqb n 32 || (Nat.leb 9 n && Nat.leb n 13))%bool.

Fixpoint trim_start (s : string) : string :=
  match s with
  | String c rest => if is_whitespace c then trim_start rest else s
  | EmptyString => EmptyString
  end.

Definition trim (s : string) : string :=
  String.rev (trim_start (String.rev (trim_start s))).

Definition digit_of (c : ascii) : option Z :=
  let n := nat_of_ascii c in
  if (Nat.leb 48 n && Nat.leb n 57)%bool then Some (Z.of_nat n - 48)%Z else None.

Fixpoint parse_digits (acc : Z) (s : string) : option Z :=
  match s with
  | EmptyString => Some acc
  | String c rest =>
      match digit_of c with
      | Some d => parse_digits (10 * acc + d)%Z rest
      | None => None
      end
  end.

Definition parse_unsigned (s : string) : number :=
  match s with
  | EmptyString => NaN
  | _ => match parse_digits 0 s with Some z => Num z | None => NaN end
  end.

Definition num_neg (n : number) : number :=
  match n with
  | NaN => NaN
  | Num z => Num (- z)
  end.

(** StringToNumber on the decimal integer literals: surrounding white
    space is dropped, the empty string is 0, anything else is [NaN].  The
    other numeric literals (a fraction, an exponent, a radix prefix,
    [Infinity]) are not read, most of them naming numbers the embedding
    does not have; the statements below compare numbers with numbers, not
    with strings. *)
Definition string_to_number (s : string) : number :=
  match trim s with
  | EmptyString => Num 0
  | String "+" rest => parse_unsigned rest
  | String "-" rest => num_neg (parse_unsigned rest)
  | t => parse_unsigned t
  end.

(** [a + b] on numbers: exact, which is the sum of the language as long
    as it is a safe integer. *)
Definition num_add (a b : number) : number :=
  match a, b with
  | Num x, Num y => Num (x + y)
  | _, _ => NaN
  end.

(** [a < b] on numbers: false as soon as one side is [NaN]. *)
Definition num_lt (a b : number) : bool :=
  match a, b with
  | Num x, Num y => (x <? y)%Z
  | _, _ => false
  end.

Fixpoint join (sep : string) (parts : list string) : string :=
  match parts with
  | [] => ""
  | [p] => p
  | p :: rest => p +:+ sep +:+ join sep rest
  end.

(** ToString; it is also ToPropertyKey, there being no symbols. *)
Fixpoint to_string (v : value) : string :=
  match v with
  | VUndefined => "undefined"
  | VNull => "null"
  | VBool true => "true"
  | VBool false => "false"
  | VNumber n => number_to_string n
  | VString s => s
  | VObject _ => "[object Object]"
  | VArray elems =>
      join ","
        (map (fun e => match e with
                       | VUndefined | VNull => ""
                       | _ => to_string e
                       end) elems)
  end.

Definition to_property_key (v : value) : string := to_string v.

(** ToPrimitive, for objects and arrays that inherit their conversion
    methods: [valueOf] returns the object itself, so the conversion falls
    through to the inherited [toString].  (An own property called
    [toString] or [valueOf] is not consulted.) *)
Definition to_primitive (v : value) : value :=
  match v with
  | VObject _ | VArray _ => VString (to_string v)
  | _ => v
  end.

(** ToNumber. *)
Definition to_number (v : value) : number :=
  match to_primitive v with
  | VUndefined => NaN
  | VNull => Num 0
  | VBool true => Num 1
  | VBool false => Num 0
  | VNumber n => n
  | VString s => string_to_number s
  | _ => NaN
  end.

(** [a < b]: two strings are compared as strings, anything else as
    numbers. *)
Definition js_lt (a b : value) : bool :=
  match to_primitive a, to_primitive b with
  | VString x, VString y => String.ltb x y
  | pa, pb => num_lt (to_number pa) (to_number pb)
  end.

(** [a + b]: concatenation as soon as one side is a string. *)
Definition js_add (a b : value) : value :=
  match to_primitive a, to_primitive b with
  | VString x, pb => VString (x +:+ to_string pb)
  | pa, VString y => VString (to_string pa +:+ y)
  | pa, pb => VNumber (num_add (to_number pa) (to_number pb))
  end.

(** ** Properties *)

Abbreviation props := (list (string * value)).

Fixpoint lookup_prop (k : string) (ps : props) : option value :=
  match ps with
  | [] => None
  | (k', v) :: rest => if String.eqb k' k then Some v else lookup_prop k rest
  end.

(** [o[k] = v] on an ordinary object: an existing key keeps its place. *)
Fixpoint set_prop (k : string) (v : value) (ps : props) : props :=
  match ps with
  | [] => [(k, v)]
  | (k', v') :: rest =>
      if String.eqb k' k then (k', v) :: rest else (k', v') :: set_prop k v rest
  end.

Definition index_key (i : nat) : string := number_to_string (Num (Z.of_nat i)).

(** The index an array key stands for: the key has to be the canonical
    spelling of an integer below [len]. *)
Definition array_index (len : nat) (k : string) : option nat :=
  match parse_unsigned k with
  | Num z =>
      if ((z <? Z.of_nat len)%Z && String.eqb (index_key (Z.to_nat z)) k)%bool
      then Some (Z.to_nat z)
      else None
  | NaN => None
  end.

Fixpoint string_chars (s : string) : list string :=
  match s with
  | EmptyString => []
  | String c rest => String c EmptyString :: string_chars rest
  end.

(** [v[k]] for [v] other than [null] and [undefined], read among the own
    properties: the keys it is used with name no inherited member, except
    in [tallyPure], where the key is the caller's. *)
Definition get (v : value) (k : string) : value :=
  match v with
  | VObject ps => default VUndefined (lookup_prop k ps)
  | VArray elems =>
      if String.eqb k "length" then VNumber (Num (Z.of_nat (length elems)))
      else match array_index (length elems) k with
           | Some i => nth i elems VUndefined
           | None => VUndefined
           end
  | VString s =>
      if String.eqb k "length" then VNumber (Num (Z.of_nat (String.length s)))
      else match array_index (String.length s) k with
           | Some i => VString (nth i (string_chars s) "")
           | None => VUndefined
           end
  | _ => VUndefined
  end.

(** [v.hasOwnProperty(k)] for an object or array [v]. *)
Definition hasOwnProperty (v : value) (k : string) : bool :=
  match v with
  | VObject ps => bool_decide (is_Some (lookup_prop k ps))
  | VArray elems =>
      (String.eqb k "length" || bool_decide (is_Some (array_index (length elems) k)))%bool
  | _ => false
  end.

(** The call [v.hasOwnProperty(k)] as the source writes it, for an object
    or array [v]: the method is looked up on [v] first, and an own property
    of that name, being a data value, cannot be called. *)
Definition call_hasOwnProperty (v k : value) : completion bool :=
  if hasOwnProperty v "hasOwnProperty" then Throw TypeError
  else Normal (hasOwnProperty v (to_property_key k)).

(** The own enumerable properties an object spread copies; spreading
    [null], [undefined] or another primitive without own keys copies
    nothing. *)
Definition own_enumerable (v : value) : props :=
  match v with
  | VObject ps => ps
  | VArray elems => imap (fun i e => (index_key i, e)) elems
  | VString s => imap (fun i c => (index_key i, VString c)) (string_chars s)
  | _ => []
  end.

(** What [for (const x of v)] visits; [None] when [v] is not iterable. *)
Definition iterate (v : value) : option (list value) :=
  match v with
  | VArray elems => Some elems
  | VString s => Some (map VString (string_chars s))
  | _ => None
  end.

(** ** [countVotesInRegions] *)

(** Reads property [k] of a property list and hands it to [found]; the
    continuation keeps the read value a structural part of the list, which
    is what lets [countVotesInRegions] recurse into it. *)
Definition with_prop {A : Type} (k : string) (found : value -> A) (missing : A)
  : props -> A :=
  fix go (ps : props) : A :=
    match ps with
    | [] => missing
    | (k', v) :: rest => if String.eqb k' k then found v else go rest
    end.

Definition own_votes (regionTree : value) : number :=
  match get regionTree "votes" with
  | VNumber n => n
  | _ => Num 0
  end.

Fixpoint countVotesInRegions (regionTree : value) : number :=
  match regionTree with
  | VObject ps =>
      let total := own_votes regionTree in
      with_prop "subRegions"
        (fun subRegions =>
           match subRegions with
           | VArray subs =>
               fold_left (fun total sub => num_add total (countVotesInRegions sub))
                 subs total
           | _ => total
           end)
        total ps
  | _ => Num 0
  end.

(** ** [tallyPure] *)

Definition tallyPure (currentTally candidateId : value) : completion value :=
  if (negb (String.eqb (typeof currentTally) "object") || loose_eq_null candidateId)%bool
  then Normal (VObject [])
  else
    let copied := own_enumerable currentTally in
    let key := to_property_key candidateId in
    match currentTally with
    | VNull => Throw TypeError
    | _ =>
        Normal (VObject (set_prop key (js_add (js_or (get currentTally key) zero) one)
                           copied))
    end.

(** ** [createVoteValidator] *)

Definition verdict (valid : bool) (reason : string) : value :=
  VObject [("valid", VBool valid); ("reason", VString reason)].

(** A destructuring default: it applies to [undefined] only. *)
Definition or_default (v dflt : value) : value :=
  match v with
  | VUndefined => dflt
  | _ => v
  end.

Definition default_requiredFields : value :=
  VArray [VString "id"; VString "name"; VString "age"].

(** The loop over [requiredFields]: it stops at the first field the voter
    does not own, or at the call that throws. *)
Fixpoint missing_field (voter : value) (fields : list value) : completion (option value) :=
  match fields with
  | [] => Normal None
  | field :: rest =>
      match call_hasOwnProperty voter field with
      | Throw e => Throw e
      | Normal false => Normal (Some field)
      | Normal true => missing_field voter rest
      end
  end.

Definition createVoteValidator (rules : value) : value -> completion value :=
  if (negb (truthy rules) || negb (String.eqb (typeof rules) "object"))%bool
  then fun _ => Normal (VObject [("valid", VBool false)])
  else
    let minAge := or_default (get rules "minAge") (VNumber (Num 18)) in
    let requiredFields := or_default (get rules "requiredFields") default_requiredFields in
    fun voter =>
      if (negb (truthy voter) || negb (String.eqb (typeof voter) "object"))%bool
      then Normal (verdict false "Invalid voter object")
      else
        match iterate requiredFields with
        | None => Throw TypeError
        | Some fields =>
            match missing_field voter fields with
            | Throw e => Throw e
            | Normal (Some field) =>
                Normal (verdict false ("Missing field: " +:+ to_string field))
            | Normal None =>
                if js_lt (get voter "age") minAge
                then Normal (verdict false ("Voter below minimum age " +:+ to_string minAge))
                else Normal (verdict true "")
            end
        end.

(** ** [createElection] *)

(** A candidate, as the constructor is documented to receive it. *)
Record Candidate : Type := {
  c_id : string;
  c_name : string;
  c_party : string
}.

(** The names under which every ordinary object finds a member of
    [Object.prototype]: the methods, and the accessor [__proto__]. *)
Definition Object_prototype_keys : list string :=
  ["constructor"; "hasOwnProperty"; "isPrototypeOf"; "propertyIsEnumerable";
   "toLocaleString"; "toString"; "valueOf"; "__proto__";
   "__defineGetter__"; "__defineSetter__"; "__lookupGetter__"; "__lookupSetter__"].

(** What a read of [votes] can yield besides [undefined]: the count under
    an own key, or, under a key [votes] does not own, the member of
    [Object.prototype] of that name (a function, or the prototype object
    itself for [__proto__]). *)
Inductive count : Type :=
| Counted (n : Z)
| Inherited (k : string).

#[global] Instance count_eq_dec : EqDecision count.
Proof. solve_decision. Defined.

(** An entry of the array [getResults] returns. *)
Record ResultRecord : Type := {
  r_id : string;
  r_name : string;
  r_party : string;
  r_votes : count
}.

(** The variables the returned methods close over.  [votes] is the object
    used as a map from candidate id to count, held as the map of its own
    properties; both sets only ever receive strings, [registerVoter]
    checking [typeof voter.id] before it adds. *)
Record session : Type := {
  candidates : list Candidate;
  votes : gmap string Z;
  registered : gset string;
  votersWhoVoted : gset string
}.

(** An optional callback argument: [None] is anything whose [typeof] is
    not ["function"]. *)
Definition callback : Type := option (value -> value).

(** A comparison function, by the number [sort] makes of its result (a
    result of [NaN] counting as 0). *)
Definition comparator : Type := ResultRecord -> ResultRecord -> Z.

(** [Array.prototype.sort] on an array of result records. *)
Definition sorter : Type := comparator -> list ResultRecord -> list ResultRecord.

(** [set.has(v)] *)
Definition Set_has (set : gset string) (v : value) : bool :=
  match v with
  | VString x => bool_decide (x ∈ set)
  | _ => false
  end.

(** [set.add(v)], called on strings only. *)
Definition Set_add (set : gset string) (v : value) : gset string :=
  match v with
  | VString x => {[x]} ∪ set
  | _ => set
  end.

(** [votes[k] = n].  A key [votes] owns gets the new count and a new key
    becomes an own property, except [__proto__]: on an object that does
    not own it that name reaches the accessor of [Object.prototype], whose
    setter ignores a number. *)
Definition votes_assign (votes : gmap string Z) (k : string) (n : Z) : gmap string Z :=
  if (String.eqb k "__proto__" && negb (bool_decide (is_Some (votes !! k))))%bool
  then votes
  else <[k := n]> votes.

(** [votes[k]]; [None] is [undefined]. *)
Definition votes_read (votes : gmap string Z) (k : string) : option count :=
  match votes !! k with
  | Some n => Some (Counted n)
  | None => if bool_decide (k ∈ Object_prototype_keys) then Some (Inherited k) else None
  end.

(** [votes.hasOwnProperty(k)]: the method is looked up on [votes] itself,
    where a candidate id may have put a count under that name. *)
Definition votes_hasOwnProperty (votes : gmap string Z) (k : value) : completion bool :=
  if bool_decide (is_Some (votes !! "hasOwnProperty")) then Throw TypeError
  else Normal (bool_decide (is_Some (votes !! to_property_key k))).

(** [candidates] is [None] when the argument is not an array. *)
Definition createElection (candidates : option (list Candidate)) : session :=
  let candidates := default [] candidates in
  {| candidates := candidates;
     votes := fold_left
                (fun votes c =>
                   if truthy (VString (c_id c)) then votes_assign votes (c_id c) 0 else votes)
                candidates ∅;
     registered := ∅;
     votersWhoVoted := ∅ |}.

Definition registerVoter (s : session) (voter : value) : session * bool :=
  if (negb (truthy voter)
      || negb (String.eqb (typeof (get voter "id")) "string")
      || negb (String.eqb (typeof (get voter "name")) "string")
      || negb (String.eqb (typeof (get voter "age")) "number")
      || js_lt (get voter "age") (VNumber (Num 18))
      || Set_has (registered s) (get voter "id"))%bool
  then (s, false)
  else ({| candidates := candidates s;
           votes := votes s;
           registered := Set_add (registered s) (get voter "id");
           votersWhoVoted := votersWhoVoted s |}, true).

Definition noop : value -> value := fun _ => VUndefined.

(** The session [castVote] leaves and what the call comes to: the value
    it returns, or the exception that ends it. *)
Definition castVote (s : session) (voterId candidateId : value)
    (onSuccess onError : callback) : session * completion value :=
  let onSuccess := default noop onSuccess in
  let onError := default noop onError in
  let key := to_property_key candidateId in
  if negb (Set_has (registered s) voterId)
  then (s, Normal (onError (VString "Voter not registered")))
  else
    match votes_hasOwnProperty (votes s) candidateId with
    | Throw e => (s, Throw e)
    | Normal false => (s, Normal (onError (VString "Candidate does not exist")))
    | Normal true =>
        if Set_has (votersWhoVoted s) voterId
        then (s, Normal (onError (VString "Voter has already voted")))
        else
          ({| candidates := candidates s;
              votes := votes_assign (votes s) key (default 0 (votes s !! key) + 1);
              registered := registered s;
              votersWhoVoted := Set_add (votersWhoVoted s) voterId |},
           Normal (onSuccess (VObject [("voterId", voterId); ("candidateId", candidateId)])))
    end.

(** [x || 0] on what [votes[k]] yields: [undefined] and the number 0 give
    0, a non-zero count and an inherited member (an object or a function)
    give themselves. *)
Definition count_or_zero (x : option count) : count :=
  match x with
  | Some (Counted n) => if (n =? 0)%Z then Counted 0 else Counted n
  | Some (Inherited k) => Inherited k
  | None => Counted 0
  end.

Definition result_record (s : session) (c : Candidate) : ResultRecord :=
  {| r_id := c_id c;
     r_name := c_name c;
     r_party := c_party c;
     r_votes := count_or_zero (votes_read (votes s) (c_id c)) |}.

(** [(a, b) => b.votes - a.votes], by the number [sort] makes of it: the
    difference of two counts, and 0 for the [NaN] that an inherited member
    on either side gives. *)
Definition by_votes_descending : comparator := fun a b =>
  match r_votes b, r_votes a with
  | Counted x, Counted y => x - y
  | _, _ => 0
  end.

Definition getResults (Array_sort : sorter) (s : session) (sortFn : option comparator)
  : list ResultRecord :=
  let results := map (result_record s) (candidates s) in
  match sortFn with
  | Some sortFn => Array_sort sortFn results
  | None => Array_sort by_votes_descending results
  end.

(** [r.votes === 0] *)
Definition is_zero (c : count) : bool :=
  match c with
  | Counted n => (n =? 0)%Z
  | Inherited _ => false
  end.

(** One turn of the loop of [getWinner] over [(maxVotes, winner)].  An
    inherited member converts to [NaN], which is above nothing. *)
Definition winner_step (acc : Z * option ResultRecord) (r : ResultRecord)
  : Z * option ResultRecord :=
  match r_votes r with
  | Counted n => if (n >? fst acc)%Z then (n, Some r) else acc
  | Inherited _ => acc
  end.

Definition getWinner (Array_sort : sorter) (s : session) : option ResultRecord :=
  let results := getResults Array_sort s None in
  if (Nat.eqb (length results) 0 || forallb (fun r => is_zero (r_votes r)) results)%bool
  then None
  else snd (fold_left winner_step results (-1, None)).

(** Sorting by insertion: each element, last first, is put before the
    first element it is not after.  It is one way for an engine to sort
    ([insertion_sort_conforming] below). *)
Fixpoint sort_insert {A : Type} (cmp : A -> A -> Z) (x : A) (sorted : list A) : list A :=
  match sorted with
  | [] => [x]
  | y :: rest =>
      if (cmp x y <=? 0)%Z then x :: y :: rest else y :: sort_insert cmp x rest
  end.

Definition insertion_sort {A : Type} (cmp : A -> A -> Z) (l : list A) : list A :=
  foldr (sort_insert cmp) [] l.

(** The calls a client can make on a session, and the state each leaves
    behind; [getResults] and [getWinner] only read the captured
    variables. *)
Inductive call : Type :=
| RegisterVoter (voter : value)
| CastVote (voterId candidateId : value) (onSuccess onError : callback)
| GetResults (sortFn : option comparator)
| GetWinner.

Definition run (s : session) (c : call) : session :=
  match c with
  | RegisterVoter voter => fst (registerVoter s voter)
  | CastVote voterId candidateId onSuccess onError =>
      fst (castVote s voterId candidateId onSuccess onError)
  | GetResults _ => s
  | GetWinner => s
  end.

Inductive reachable : session -> Prop :=
| reachable_new candidates : reachable (createElection candidates)
| reachable_run s c : reachable s -> reachable (run s c).

Definition sum_votes (m : gmap string Z) : Z :=
  map_fold (fun _ n total => n + total) 0 m.

(** ** Object identity

    [tallyPure] promises not to write to the object it is handed.  A value
    of type [value] has no identity, so that promise is stated on a store
    of objects: the argument is the address of an object, every property
    write names the address it goes to, and the object literal of the
    source is an allocation followed by writes to the new address. *)

Abbreviation loc := positive.
Abbreviation heap := (gmap loc props).

Definition heap_alloc (h : heap) : heap * loc :=
  let l := fresh (dom h) in (<[l := []]> h, l).

Definition heap_get (h : heap) (l : loc) (k : string) : value :=
  match h !! l with
  | Some ps => default VUndefined (lookup_prop k ps)
  | None => VUndefined
  end.

Definition heap_set (h : heap) (l : loc) (k : string) (v : value) : heap :=
  match h !! l with
  | Some ps => <[l := set_prop k v ps]> h
  | None => h
  end.

(** [...source] inside the literal at [target]. *)
Definition heap_spread (h : heap) (target source : loc) : heap :=
  fold_left (fun h kv => heap_set h target (fst kv) (snd kv)) (default [] (h !! source)) h.

(** [tallyPure] called on the object at address [currentTally], whose
    [typeof] is ["object"]. *)
Definition tallyPure_at (h : heap) (currentTally : loc) (candidateId : value)
  : heap * loc :=
  if loose_eq_null candidateId then heap_alloc h
  else
    let (h1, result) := heap_alloc h in
    let h2 := heap_spread h1 result currentTally in
    let key := to_property_key candidateId in
    let count := js_add (js_or (heap_get h2 currentTally key) zero) one in
    (heap_set h2 result key count, result).

(** ** Vocabulary of the statements *)

Definition num (z : Z) : value := VNumber (Num z).
Definition str (s : string) : value := VString s.

(** [regionTree.subRegions], read as empty when it is not an array. *)
Definition subRegions (regionTree : value) : list value :=
  match get regionTree "subRegions" with
  | VArray subs => subs
  | _ => []
  end.

Definition num_sum (l : list number) : number := foldr num_add (Num 0) l.

(** The absolute values of the numbers [countVotesInRegions] adds up on a
    tree, added up.  No sum the function forms along the way exceeds it,
    so that while it is a safe integer every addition is exact. *)
Fixpoint magnitude (regionTree : value) : Z :=
  match regionTree with
  | VObject ps =>
      let own := match own_votes regionTree with
                 | Num z => Z.abs z
                 | NaN => 0
                 end in
      with_prop "subRegions"
        (fun subRegions =>
           match subRegions with
           | VArray subs => fold_left (fun total sub => total + magnitude sub) subs own
           | _ => own
           end)
        own ps
  | _ => 0
  end.

(** The region tree of the documentation:
    [{votes: 2, subRegions: [{votes: 3, subRegions: []}, {votes: 1}]}]. *)
Definition sample_regions : value :=
  VObject [("votes", num 2);
           ("subRegions",
            VArray [VObject [("votes", num 3); ("subRegions", VArray [])];
                    VObject [("votes", num 1)]])].

(** An object in the sense of the guards [!v || typeof v !== "object"]. *)
Definition is_object (v : value) : bool :=
  match v with
  | VObject _ | VArray _ => true
  | _ => false
  end.

(** The integers that binary64 holds one by one ([Number.isSafeInteger]):
    sums that stay among them are exact, and they print in plain
    decimal. *)
Definition safe_integer (z : Z) : Prop := (Z.abs z <= 2 ^ 53 - 1)%Z.


(** The values [to_string] prints as a template literal does: primitives,
    a number being [NaN] or a safe integer. *)
Definition prints_exactly (v : value) : Prop :=
  match v with
  | VObject _ | VArray _ => False
  | VNumber (Num z) => safe_integer z
  | _ => True
  end.

(** [voter] owns the property a required field names. *)
Definition has_field (voter field : value) : Prop :=
  hasOwnProperty voter (to_property_key field) = true.



(** [v] is a string of the set. *)
Definition in_set (set : gset string) (v : value) : Prop :=
  exists x, v = VString x /\ x ∈ set.

(** The session after [vid] has been registered. *)
Definition with_registered (s : session) (vid : string) : session :=
  {| candidates := candidates s;
     votes := votes s;
     registered := {[vid]} ∪ registered s;
     votersWhoVoted := votersWhoVoted s |}.

(** What [registerVoter] accepts: an object with a string [id], a string
    [name], a number [age] for which [age < 18] is false, and an [id] that
    is not registered yet. *)
Definition registrable (s : session) (voter : value) (vid : string) : Prop :=
  is_object voter = true /\
  get voter "id" = VString vid /\
  (exists name, get voter "name" = VString name) /\
  (exists age, get voter "age" = VNumber age /\ num_lt age (Num 18) = false) /\
  vid ∉ registered s.

(** The condition as the specification words it: a numeric age that is at
    least 18. *)
Definition claimed_registrable (s : session) (voter : value) (vid : string) : Prop :=
  is_object voter = true /\
  get voter "id" = VString vid /\
  (exists name, get voter "name" = VString name) /\
  (exists z, get voter "age" = VNumber (Num z) /\ (18 <= z)%Z) /\
  vid ∉ registered s.

(** A candidate called [id]. *)
Definition candidate_named (id : string) : Candidate :=
  {| c_id := id; c_name := "Sarpanch Ram"; c_party := "Janata" |}.

(** The candidates of the documentation. *)
Definition sample_C1 : Candidate :=
  {| c_id := "C1"; c_name := "Sarpanch Ram"; c_party := "Janata" |}.
Definition sample_C2 : Candidate :=
  {| c_id := "C2"; c_name := "Pradhan Sita"; c_party := "Lok" |}.

Definition sample_registration : value :=
  VObject [("id", str "V1"); ("name", str "Mohan"); ("age", num 25)].

(** The session with the candidates [cs] in which the voter V1 of the
    documentation is registered. *)
Definition session_with (cs : list Candidate) : session :=
  run (createElection (Some cs)) (RegisterVoter sample_registration).

(** The same session after V1 has voted for the candidate called [id]. *)
Definition session_voted (cs : list Candidate) (id : string) : session :=
  run (session_with cs) (CastVote (str "V1") (str id) None None).

(** Candidates C1, C2 and C3 and two voters: V1 has voted for C3, then V2
    for C2, so that C2 and C3 are tied at one vote. *)
Definition tied_session : session :=
  run (run (run (session_with [sample_C1; sample_C2; candidate_named "C3"])
              (RegisterVoter (VObject [("id", str "V2"); ("name", str "Sohan");
                                       ("age", num 30)])))
         (CastVote (str "V1") (str "C3") None None))
    (CastVote (str "V2") (str "C2") None None).

Definition sample_session : session :=
  run (run (createElection (Some [sample_C1; sample_C2])) (RegisterVoter sample_registration))
    (CastVote (str "V1") (str "C1") None None).

(** The counts add up to the number of voters who voted. *)
Definition vote_invariant (s : session) : Prop :=
  sum_votes (votes s) = Z.of_nat (size (votersWhoVoted s)).

(** The order a comparator induces, and the comparator contract on the
    elements of [l]: the sign of [cmp b a] is the opposite of the sign of
    [cmp a b], and "not after" is transitive. *)
Definition cmp_le {A : Type} (cmp : A -> A -> Z) (a b : A) : Prop := (cmp a b <= 0)%Z.

Record consistent_on {A : Type} (l : list A) (cmp : A -> A -> Z) : Prop := {
  consistent_flip : forall a b, a ∈ l -> b ∈ l -> (cmp a b < 0)%Z <-> (0 < cmp b a)%Z;
  consistent_trans : forall a b c, a ∈ l -> b ∈ l -> c ∈ l ->
    cmp_le cmp a b -> cmp_le cmp b c -> cmp_le cmp a c
}.

(** [sorted] is [l] sorted by [cmp], stably: a rearrangement of [l] in
    which no element comes after one it precedes in the order, and in which
    the elements that compare equal to a given one stand in the order they
    have in [l]. *)
Definition stable_sort_of {A : Type} (cmp : A -> A -> Z) (l sorted : list A) : Prop :=
  sorted ≡ₚ l /\
  StronglySorted (cmp_le cmp) sorted /\
  forall x, x ∈ l ->
    filter (fun y => cmp x y = 0%Z) sorted = filter (fun y => cmp x y = 0%Z) l.

(** What the language guarantees of [sort]: on an array whose elements
    the comparison function orders consistently, the result is that array
    sorted stably.  On other arrays the order is left to the engine, and
    nothing is assumed. *)
Definition conforming (Array_sort : sorter) : Prop :=
  forall cmp l, consistent_on l cmp -> stable_sort_of cmp l (Array_sort cmp l).


(** The count a candidate stands at. *)
Definition tally (s : session) (c : Candidate) : Z := default 0 (votes s !! c_id c).

(** No candidate is called [__proto__], the one id [votes] cannot hold. *)
Definition no_proto_candidate (s : session) : Prop :=
  Forall (fun c => c_id c <> "__proto__") (candidates s).

(** Where a record stands in the loop of [getWinner]: at its count, an
    inherited member standing below every count (it converts to [NaN],
    and the loop starts from -1). *)
Definition level (r : ResultRecord) : Z :=
  match r_votes r with
  | Counted n => n
  | Inherited _ => -1
  end.


(** [ids.reduce(tallyPure, start)]: one [tallyPure] per vote, each on the
    tally the previous one returned. *)
Definition tally_from (start : completion value) (ids : list value) : completion value :=
  fold_left (fun acc id =>
               match acc with
               | Normal tally => tallyPure tally id
               | Throw e => Throw e
               end)
    ids start.

(** [ids.reduce(tallyPure, {})] *)
Definition tally_all (ids : list value) : completion value :=
  tally_from (Normal (VObject [])) ids.

(** The properties of the object [tallyPure] returns for the object with
    properties [ps]. *)
Definition next_tally (ps : props) (candidateId : value) : props :=
  if loose_eq_null candidateId then []
  else
    let key := to_property_key candidateId in
    set_prop key (js_add (js_or (get (VObject ps) key) zero) one) ps.

(** Two property lists that read the same under every key. *)
Definition same_props (ps ps' : props) : Prop :=
  forall k, lookup_prop k ps = lookup_prop k ps'.

(** How often [k] occurs in [ids]. *)
Definition occurrences (k : string) (ids : list string) : Z :=
  Z.of_nat (length (filter (fun id => id = k) ids)).

(** * Properties *)

(** ** Strings and property lists *)

Lemma eqb_string_true (a b : string) : String.eqb a b = true <-> a = b.
Proof. apply String.eqb_eq. Qed.

Lemma eqb_string_false (a b : string) : String.eqb a b = false <-> a <> b.
Proof. apply String.eqb_neq. Qed.

Lemma lookup_set_prop k k' v ps :
  lookup_prop k (set_prop k' v ps) =
  if String.eqb k' k then Some v else lookup_prop k ps.
Proof.
  induction ps as [|[k0 v0] ps IH]; simpl.
  - destruct (String.eqb k' k); reflexivity.
  - destruct (String.eqb k0 k') eqn:E0; simpl.
    + apply eqb_string_true in E0. subst k0.
      destruct (String.eqb k' k); reflexivity.
    + destruct (String.eqb k0 k) eqn:E1.
      * apply eqb_string_true in E1. subst k0.
        rewrite String.eqb_sym, E0. reflexivity.
      * exact IH.
Qed.

Lemma with_prop_lookup {A : Type} k (found : value -> A) missing ps :
  with_prop k found missing ps =
  match lookup_prop k ps with
  | Some v => found v
  | None => missing
  end.
Proof.
  induction ps as [|[k0 v0] ps IH]; simpl; [reflexivity|].
  destruct (String.eqb k0 k); [reflexivity|exact IH].
Qed.

(** ** Numbers *)

Lemma num_add_assoc a b c : num_add a (num_add b c) = num_add (num_add a b) c.
Proof. destruct a, b, c; simpl; try reflexivity. f_equal. lia. Qed.

Lemma num_add_zero_r a : num_add a (Num 0) = a.
Proof. destruct a; simpl; [reflexivity|]. f_equal. lia. Qed.

Lemma fold_left_num_add {A : Type} (f : A -> number) l total :
  fold_left (fun total x => num_add total (f x)) l total =
  num_add total (num_sum (map f l)).
Proof.
  revert total. induction l as [|x l IH]; intros total; simpl.
  - symmetry. apply num_add_zero_r.
  - rewrite IH. symmetry. apply num_add_assoc.
Qed.

(** ** [countVotesInRegions] *)

(** The recursion equation, in the shape of the source: the guard, the
    initial total, then one addition per sub-region. *)
Lemma countVotesInRegions_unfold regionTree :
  countVotesInRegions regionTree =
  if (negb (truthy regionTree) || negb (String.eqb (typeof regionTree) "object"))%bool
  then Num 0
  else fold_left (fun total sub => num_add total (countVotesInRegions sub))
         (subRegions regionTree) (own_votes regionTree).
Proof.
  destruct regionTree as [| |b|n|s|ps|elems]; try reflexivity.
  - destruct b; reflexivity.
  - destruct n as [|z]; [reflexivity|]. simpl. destruct (z =? 0)%Z; reflexivity.
  - simpl. destruct (negb (String.eqb s "")); reflexivity.
  - cbn [countVotesInRegions]. rewrite with_prop_lookup.
    unfold subRegions, get. simpl.
    destruct (lookup_prop "subRegions" ps) as [[| | | | | |subs]|]; reflexivity.
Qed.

(** C9.  [countVotesInRegions] returns 0 on a falsy or non-object input.
    On an object it starts from its [votes] if that is a number, else from
    0, and adds to it, from left to right, the result on each element of
    [subRegions] (none when that is not an array); as long as the numbers
    involved add up to a safe integer in absolute value, so that no
    addition rounds, this is [votes] plus the sum of the results on the
    elements.  On the documented tree it returns 6, on [null] it returns
    0. *)
Theorem countVotesInRegions_spec :
  (forall tree, truthy tree = false \/ typeof tree <> "object" ->
     countVotesInRegions tree = Num 0) /\
  (forall tree, truthy tree = true -> typeof tree = "object" ->
     safe_integer (magnitude tree) ->
     countVotesInRegions tree =
     fold_left (fun total sub => num_add total (countVotesInRegions sub))
       (subRegions tree)
       (match get tree "votes" with VNumber n => n | _ => Num 0 end) /\
     countVotesInRegions tree =
     num_add (match get tree "votes" with VNumber n => n | _ => Num 0 end)
       (num_sum (map countVotesInRegions (subRegions tree)))) /\
  countVotesInRegions sample_regions = Num 6 /\
  countVotesInRegions VNull = Num 0.
Proof.
  split; [|split; [|split; reflexivity]].
  - intros tree H. rewrite countVotesInRegions_unfold.
    destruct H as [H|H].
    + rewrite H. reflexivity.
    + apply eqb_string_false in H. rewrite H.
      destruct (truthy tree); reflexivity.
  - intros tree Ht Ho _.
    assert (countVotesInRegions tree =
            fold_left (fun total sub => num_add total (countVotesInRegions sub))
              (subRegions tree) (own_votes tree)) as Hloop.
    { rewrite countVotesInRegions_unfold at 1.
      apply eqb_string_true in Ho. rewrite Ht, Ho. reflexivity. }
    split; [exact Hloop|]. rewrite Hloop. apply fold_left_num_add.
Qed.

Lemma countVotesInRegions_spec_witness :
  countVotesInRegions (VString "north") = Num 0 /\
  countVotesInRegions sample_regions =
    fold_left (fun total sub => num_add total (countVotesInRegions sub))
      (subRegions sample_regions) (Num 2) /\
  countVotesInRegions sample_regions =
    num_add (Num 2) (num_sum (map countVotesInRegions (subRegions sample_regions))).
Proof.
  split.
  - apply (proj1 countVotesInRegions_spec). right. discriminate.
  - apply (proj1 (proj2 countVotesInRegions_spec) sample_regions); try reflexivity.
    unfold safe_integer. vm_compute. discriminate.
Defined.

(** ** [tallyPure] on values *)

(** Only [null] makes [tallyPure] throw. *)
Lemma tallyPure_returns currentTally candidateId :
  currentTally <> VNull ->
  exists tally, tallyPure currentTally candidateId = Normal (VObject tally).
Proof.
  intros H. unfold tallyPure.
  destruct (negb (String.eqb (typeof currentTally) "object") || loose_eq_null candidateId)%bool;
    [eexists; reflexivity|].
  destruct currentTally; try (eexists; reflexivity). congruence.
Qed.

Lemma tallyPure_null candidateId :
  loose_eq_null candidateId = false ->
  tallyPure VNull candidateId = Throw TypeError.
Proof. intros H. unfold tallyPure. simpl. rewrite H. reflexivity. Qed.

(** C5.  [typeof null] is ["object"], so the guard of [tallyPure] lets
    [null] through and the read [currentTally[candidateId]] throws: the call
    [tallyPure(null, "a")] signals a [TypeError] instead of returning the
    empty mapping.  It is the only way to make [tallyPure] throw: a [null]
    tally together with a candidate id that is neither [null] nor
    [undefined]. *)
Theorem tallyPure_throws_on_null :
  tallyPure VNull (VString "a") = Throw TypeError /\
  forall currentTally candidateId,
    tallyPure currentTally candidateId = Throw TypeError <->
    currentTally = VNull /\ loose_eq_null candidateId = false.
Proof.
  split; [reflexivity|]. intros currentTally candidateId. split.
  - intros H. assert (currentTally = VNull) as ->.
    { destruct currentTally as [| |b|n|x|ps|elems]; try reflexivity; exfalso;
        (edestruct tallyPure_returns as [t Ht];
         [|rewrite Ht in H; discriminate H]; discriminate). }
    split; [reflexivity|].
    unfold tallyPure in H. simpl in H.
    destruct (loose_eq_null candidateId); [discriminate H|reflexivity].
  - intros [-> H]. apply tallyPure_null. exact H.
Qed.

(** ** [tallyPure] on the store *)

Lemma heap_alloc_fresh (h : heap) l : is_Some (h !! l) -> l <> snd (heap_alloc h).
Proof.
  intros Hl Heq. simpl in Heq. subst l.
  apply elem_of_dom in Hl. exact (is_fresh (dom h) Hl).
Qed.

Lemma heap_alloc_other (h : heap) l :
  is_Some (h !! l) -> fst (heap_alloc h) !! l = h !! l.
Proof.
  intros Hl. simpl. apply lookup_insert_ne.
  intros Heq. exact (heap_alloc_fresh h l Hl (eq_sym Heq)).
Qed.

Lemma heap_set_other (h : heap) target k v l :
  l <> target -> heap_set h target k v !! l = h !! l.
Proof.
  intros Hne. unfold heap_set.
  destruct (h !! target); [|reflexivity].
  apply lookup_insert_ne. congruence.
Qed.

Lemma heap_set_target (h : heap) target k v ps :
  h !! target = Some ps -> heap_set h target k v !! target = Some (set_prop k v ps).
Proof. intros H. unfold heap_set. rewrite H. apply lookup_insert_eq. Qed.

Lemma fold_heap_set_other (kvs : props) (h : heap) target l :
  l <> target ->
  fold_left (fun h kv => heap_set h target (fst kv) (snd kv)) kvs h !! l = h !! l.
Proof.
  intros Hne. revert h. induction kvs as [|kv kvs IH]; intros h; simpl; [reflexivity|].
  rewrite IH. apply heap_set_other. exact Hne.
Qed.

Lemma fold_heap_set_target (kvs : props) (h : heap) target acc :
  h !! target = Some acc ->
  fold_left (fun h kv => heap_set h target (fst kv) (snd kv)) kvs h !! target =
  Some (fold_left (fun acc kv => set_prop (fst kv) (snd kv) acc) kvs acc).
Proof.
  revert h acc. induction kvs as [|kv kvs IH]; intros h acc H; simpl; [exact H|].
  apply IH. apply heap_set_target. exact H.
Qed.

Lemma heap_spread_other (h : heap) target source l :
  l <> target -> heap_spread h target source !! l = h !! l.
Proof. apply fold_heap_set_other. Qed.

(** No call of [tallyPure_at] writes to an address that was allocated
    before the call. *)
Lemma tallyPure_at_frame (h : heap) currentTally candidateId l :
  is_Some (h !! l) ->
  fst (tallyPure_at h currentTally candidateId) !! l = h !! l.
Proof.
  intros Hl. unfold tallyPure_at.
  destruct (loose_eq_null candidateId); [apply heap_alloc_other; exact Hl|].
  pose proof (heap_alloc_fresh h l Hl) as Hne.
  pose proof (heap_alloc_other h l Hl) as Hsame.
  destruct (heap_alloc h) as [h1 result]. simpl in *.
  rewrite heap_set_other by exact Hne.
  rewrite heap_spread_other by exact Hne.
  exact Hsame.
Qed.

Lemma set_prop_fresh k v (ps : props) :
  k ∉ (map fst ps : list string) -> set_prop k v ps = ps ++ [(k, v)].
Proof.
  induction ps as [|[k0 v0] ps IH]; intros Hk; simpl; [reflexivity|].
  simpl in Hk. apply not_elem_of_cons in Hk. destruct Hk as [Hne Hk].
  destruct (String.eqb k0 k) eqn:E.
  - apply eqb_string_true in E. congruence.
  - rewrite IH by exact Hk. reflexivity.
Qed.

Lemma fold_set_prop_copy (ps acc : props) :
  NoDup (map fst (acc ++ ps)) ->
  fold_left (fun acc kv => set_prop (fst kv) (snd kv) acc) ps acc = acc ++ ps.
Proof.
  revert acc. induction ps as [|[k v] ps IH]; intros acc Hnd; simpl.
  - symmetry. apply app_nil_r.
  - rewrite set_prop_fresh.
    + rewrite IH; rewrite <- app_assoc; [reflexivity|exact Hnd].
    + rewrite map_app in Hnd. apply NoDup_app in Hnd.
      destruct Hnd as (_ & Hdisj & _). intros Hin.
      apply (Hdisj k Hin). simpl. left.
Qed.

(** The store version computes, at the new address, the object the value
    version returns. *)
Lemma tallyPure_at_refines (h : heap) currentTally candidateId ps :
  h !! currentTally = Some ps ->
  NoDup (map fst ps) ->
  exists ps',
    tallyPure (VObject ps) candidateId = Normal (VObject ps') /\
    fst (tallyPure_at h currentTally candidateId)
      !! snd (tallyPure_at h currentTally candidateId) = Some ps'.
Proof.
  intros Hl Hnd. unfold tallyPure_at, tallyPure. simpl.
  destruct (loose_eq_null candidateId).
  - exists []. split; [reflexivity|]. simpl. apply lookup_insert_eq.
  - eexists. split; [reflexivity|].
    assert (currentTally <> fresh (dom h)) as Hne.
    { apply (heap_alloc_fresh h currentTally). exists ps. exact Hl. }
    simpl.
    assert (<[fresh (dom h) := []]> h !! currentTally = Some ps) as Hl1.
    { rewrite lookup_insert_ne by congruence. exact Hl. }
    assert (heap_spread (<[fresh (dom h) := []]> h) (fresh (dom h)) currentTally
              !! fresh (dom h) = Some ps) as Hcopy.
    { unfold heap_spread. rewrite Hl1. simpl.
      erewrite fold_heap_set_target by apply lookup_insert_eq.
      rewrite fold_set_prop_copy by exact Hnd. reflexivity. }
    erewrite heap_set_target by exact Hcopy.
    unfold heap_get. rewrite heap_spread_other by exact Hne.
    rewrite Hl1. reflexivity.
Qed.

(** C6.  [tallyPure] writes to the object it allocates and to no other:
    every object of the store, the argument included, has the same
    properties after the call as before.  After [tallyPure({a: 1}, "a")]
    has returned [{a: 2}], the argument is still [{a: 1}]. *)
Theorem tallyPure_leaves_input_unchanged :
  (forall (h : heap) currentTally candidateId tally,
     h !! currentTally = Some tally ->
     fst (tallyPure_at h currentTally candidateId) !! currentTally = Some tally) /\
  (forall (h : heap) currentTally candidateId l,
     is_Some (h !! l) ->
     fst (tallyPure_at h currentTally candidateId) !! l = h !! l) /\
  (let h : heap := {[ 1%positive := [("a", num 1)] ]} in
   let after := tallyPure_at h 1%positive (str "a") in
   fst after !! snd after = Some [("a", num 2)] /\
   fst after !! 1%positive = Some [("a", num 1)]).
Proof.
  split; [|split].
  - intros h currentTally candidateId tally H.
    rewrite tallyPure_at_frame; [exact H|]. rewrite H. eauto.
  - intros. apply tallyPure_at_frame. assumption.
  - vm_compute. split; reflexivity.
Qed.

Lemma tallyPure_leaves_input_unchanged_witness :
  let h : heap := {[ 7%positive := [("a", num 1); ("b", num 4)] ]} in
  fst (tallyPure_at h 7%positive (str "b")) !! 7%positive =
  Some [("a", num 1); ("b", num 4)].
Proof.
  intros h.
  apply (proj1 tallyPure_leaves_input_unchanged h 7%positive (str "b")).
  reflexivity.
Defined.

(** ** [createVoteValidator] *)

Lemma object_guard v :
  (negb (truthy v) || negb (String.eqb (typeof v) "object"))%bool = negb (is_object v).
Proof.
  destruct v as [| |b|n|x|ps|elems]; try reflexivity.
  - destruct b; reflexivity.
  - destruct n as [|z]; [reflexivity|]. simpl. destruct (z =? 0)%Z; reflexivity.
  - simpl. destruct (negb (String.eqb x "")); reflexivity.
Qed.


Lemma find_nowhere {A : Type} (f : A -> bool) l :
  Forall (fun y => f y = false) l -> List.find f l = None.
Proof.
  intros H. induction H as [|y l Hy _ IH]; simpl; [reflexivity|].
  rewrite Hy. exact IH.
Qed.

Lemma has_fields_negb voter fields :
  Forall (has_field voter) fields ->
  Forall (fun f => negb (hasOwnProperty voter (to_property_key f)) = false) fields.
Proof.
  intros Hall. eapply Forall_impl; [exact Hall|].
  intros f H. unfold has_field in H. rewrite H. reflexivity.
Qed.

(** On a voter that leaves [hasOwnProperty] to the prototype the loop is a
    search for the first field the voter does not own. *)
Lemma missing_field_find voter fields :
  hasOwnProperty voter "hasOwnProperty" = false ->
  missing_field voter fields =
  Normal (List.find (fun field => negb (hasOwnProperty voter (to_property_key field))) fields).
Proof.
  intros Hs. induction fields as [|f fields IH]; cbn [missing_field List.find]; [reflexivity|].
  unfold call_hasOwnProperty. rewrite Hs.
  destruct (hasOwnProperty voter (to_property_key f)); cbn [negb]; [exact IH|reflexivity].
Qed.

(** On a voter that owns a property of that name the first turn throws. *)
Lemma missing_field_throws voter field fields :
  hasOwnProperty voter "hasOwnProperty" = true ->
  missing_field voter (field :: fields) = Throw TypeError.
Proof.
  intros Hs. cbn [missing_field]. unfold call_hasOwnProperty. rewrite Hs. reflexivity.
Qed.

Lemma missing_field_none voter fields :
  missing_field voter fields = Normal None -> Forall (has_field voter) fields.
Proof.
  induction fields as [|f fields IH]; cbn [missing_field]; [constructor|].
  unfold call_hasOwnProperty.
  destruct (hasOwnProperty voter "hasOwnProperty"); [discriminate|].
  destruct (hasOwnProperty voter (to_property_key f)) eqn:E; [|discriminate].
  intros H. constructor; [exact E|apply IH; exact H].
Qed.

(** What the validator does once the required fields can be iterated. *)
Lemma validator_body rules voter fields :
  is_object rules = true ->
  is_object voter = true ->
  iterate (or_default (get rules "requiredFields") default_requiredFields) = Some fields ->
  createVoteValidator rules voter =
  match missing_field voter fields with
  | Throw e => Throw e
  | Normal (Some field) => Normal (verdict false ("Missing field: " +:+ to_string field))
  | Normal None =>
      if js_lt (get voter "age") (or_default (get rules "minAge") (VNumber (Num 18)))
      then Normal (verdict false
                     ("Voter below minimum age "
                      +:+ to_string (or_default (get rules "minAge") (VNumber (Num 18)))))
      else Normal (verdict true "")
  end.
Proof.
  intros Hr Hv Hf. unfold createVoteValidator.
  rewrite object_guard, Hr. cbn [negb]. rewrite object_guard, Hv, Hf. reflexivity.
Qed.


Lemma string_fields_owned voter (fields : list string) :
  Forall (fun f => hasOwnProperty voter f = true) fields ->
  Forall (has_field voter) (map VString fields).
Proof.
  intros H. induction H as [|f fields Hf _ IH]; constructor; [exact Hf|exact IH].
Qed.




Lemma get_absent voter k :
  is_object voter = true -> hasOwnProperty voter k = false ->
  String.eqb k "length" = false -> get voter k = VUndefined.
Proof.
  intros Ho Hk Hlen. destruct voter as [| | | | |ps|elems]; try discriminate.
  - simpl in *. destruct (lookup_prop k ps); [|reflexivity].
    rewrite bool_decide_eq_false in Hk. exfalso. apply Hk. eauto.
  - simpl in *. rewrite Hlen in *. simpl in Hk.
    destruct (array_index (length elems) k); [|reflexivity].
    rewrite bool_decide_eq_false in Hk. exfalso. apply Hk. eauto.
Qed.

Lemma js_lt_undefined v : js_lt VUndefined v = false.
Proof. unfold js_lt. simpl. destruct (to_primitive v); reflexivity. Qed.

(** C10.  When [requiredFields] is an array of strings that does not
    list ["age"], a voter object that owns every listed field and has no
    [age] is accepted with [{valid: true, reason: ""}], whatever primitive
    [minAge] is: [undefined < minAge] is false.  This holds for the voters
    that do not own a property called [hasOwnProperty]; on one that does,
    such as [{id: "v1", hasOwnProperty: 1}] under
    [{requiredFields: ["id"]}], the field check
    [voter.hasOwnProperty("id")] finds the number 1 instead of the method
    and throws, although the voter owns the one required field and has no
    [age]. *)
Theorem validator_accepts_absent_age :
  (let rules := VObject [("requiredFields", VArray [VString "id"])] in
   let voter := VObject [("id", VString "v1"); ("hasOwnProperty", VNumber (Num 1))] in
   hasOwnProperty voter "id" = true /\
   hasOwnProperty voter "age" = false /\
   createVoteValidator rules voter = Throw TypeError) /\
  forall (rules voter : value) (fields : list string),
    is_object rules = true ->
    get rules "requiredFields" = VArray (map VString fields) ->
    ~ In "age" fields ->
    is_object (or_default (get rules "minAge") (VNumber (Num 18))) = false ->
    is_object voter = true ->
    hasOwnProperty voter "age" = false ->
    hasOwnProperty voter "hasOwnProperty" = false ->
    Forall (fun f => hasOwnProperty voter f = true) fields ->
    createVoteValidator rules voter =
    Normal (VObject [("valid", VBool true); ("reason", VString "")]).
Proof.
  split; [repeat split|].
  intros rules voter fields Hr Hf _ _ Hv Hage Hown Hall.
  rewrite (validator_body rules voter (map VString fields) Hr Hv)
    by (rewrite Hf; reflexivity).
  rewrite (missing_field_find voter _ Hown).
  rewrite find_nowhere by (apply has_fields_negb, string_fields_owned; exact Hall).
  rewrite (get_absent voter "age" Hv Hage) by reflexivity.
  rewrite js_lt_undefined. reflexivity.
Qed.

Lemma validator_accepts_absent_age_witness :
  createVoteValidator
    (VObject [("minAge", num 21); ("requiredFields", VArray [str "id"; str "name"])])
    (VObject [("id", str "v1"); ("name", str "Mohan")]) =
  Normal (VObject [("valid", VBool true); ("reason", VString "")]).
Proof.
  apply (proj2 validator_accepts_absent_age _ _ ["id"; "name"]).
  - reflexivity.
  - reflexivity.
  - simpl. intros [H|[H|[]]]; discriminate H.
  - reflexivity.
  - reflexivity.
  - reflexivity.
  - reflexivity.
  - repeat constructor.
Defined.

(** ** [registerVoter] *)

Lemma typeof_string v : typeof v = "string" <-> exists x, v = VString x.
Proof.
  split; [|intros [x ->]; reflexivity].
  destruct v; try discriminate. eauto.
Qed.

Lemma typeof_number v : typeof v = "number" <-> exists n, v = VNumber n.
Proof.
  split; [|intros [x ->]; reflexivity].
  destruct v; try discriminate. eauto.
Qed.

Lemma Set_has_true set v : Set_has set v = true <-> in_set set v.
Proof.
  unfold in_set. destruct v; simpl; try (split; [discriminate|intros (x & [=] & _)]).
  rewrite bool_decide_eq_true. split; [eauto|].
  intros (x & [= ->] & H). exact H.
Qed.

Lemma Set_has_false set v : Set_has set v = false <-> ~ in_set set v.
Proof.
  rewrite <- Set_has_true. destruct (Set_has set v); split; congruence.
Qed.

(** Only an object has a string under ["id"]. *)
Lemma string_id_is_object voter x : get voter "id" = VString x -> is_object voter = true.
Proof.
  destruct voter as [| |b|n|y|ps|elems]; try reflexivity; discriminate.
Qed.

(** The guard of [registerVoter] lets through exactly the voters that are
    [registrable]. *)
Lemma registerVoter_guard s voter :
  (negb (truthy voter)
   || negb (String.eqb (typeof (get voter "id")) "string")
   || negb (String.eqb (typeof (get voter "name")) "string")
   || negb (String.eqb (typeof (get voter "age")) "number")
   || js_lt (get voter "age") (VNumber (Num 18))
   || Set_has (registered s) (get voter "id"))%bool = false
  <-> exists vid, registrable s voter vid.
Proof.
  rewrite !orb_false_iff, !negb_false_iff, !eqb_string_true.
  rewrite !typeof_string, typeof_number, Set_has_false.
  unfold registrable. split.
  - intros (((((Ht & vid & Hid) & name & Hname) & age & Hage) & Hlt) & Hreg).
    exists vid. repeat split.
    + exact (string_id_is_object voter vid Hid).
    + exact Hid.
    + eauto.
    + exists age. split; [exact Hage|]. rewrite Hage in Hlt. exact Hlt.
    + intros Hin. apply Hreg. exists vid. rewrite Hid. auto.
  - intros (vid & Ho & Hid & (name & Hname) & (age & Hage & Hlt) & Hreg).
    repeat split; eauto.
    + destruct voter; try discriminate; reflexivity.
    + rewrite Hage. exact Hlt.
    + intros (x & Hx & Hin). rewrite Hid in Hx. injection Hx as <-. auto.
Qed.

Lemma registrable_id s voter vid :
  registrable s voter vid -> get voter "id" = VString vid.
Proof. intros (_ & H & _). exact H. Qed.

(** Counterexample to C3 as stated: a voter whose age is [NaN] is
    registered, [NaN < 18] being false, although its age is not a number
    that is at least 18. *)
Lemma registerVoter_accepts_NaN_age :
  let voter := VObject [("id", str "V1"); ("name", str "Mohan"); ("age", VNumber NaN)] in
  snd (registerVoter (createElection (Some [])) voter) = true /\
  ~ exists vid, claimed_registrable (createElection (Some [])) voter vid.
Proof.
  split; [reflexivity|].
  intros (vid & _ & _ & _ & (z & Hage & _) & _). discriminate Hage.
Qed.

(** C3, amended.  [registerVoter] returns [true] exactly for a voter that
    is an object with a string [id], a string [name], a number [age] that is
    not below 18 (18 or more, or [NaN]) and an [id] not yet registered; it
    then adds [voter.id] to the registered set and changes nothing else.
    When it returns [false], a second registration of an id included, the
    session is unchanged. *)
Theorem registerVoter_spec (s : session) (voter : value) :
  (snd (registerVoter s voter) = true <-> exists vid, registrable s voter vid) /\
  (forall vid, registrable s voter vid ->
     fst (registerVoter s voter) = with_registered s vid) /\
  (snd (registerVoter s voter) = false -> fst (registerVoter s voter) = s).
Proof.
  pose proof (registerVoter_guard s voter) as Hguard.
  unfold registerVoter.
  destruct (negb (truthy voter)
            || negb (String.eqb (typeof (get voter "id")) "string")
            || negb (String.eqb (typeof (get voter "name")) "string")
            || negb (String.eqb (typeof (get voter "age")) "number")
            || js_lt (get voter "age") (VNumber (Num 18))
            || Set_has (registered s) (get voter "id"))%bool; simpl.
  - split; [|split].
    + split; [discriminate|]. intros H. apply Hguard in H. discriminate H.
    + intros vid H. assert (true = false) by (apply Hguard; eauto). discriminate.
    + reflexivity.
  - split; [|split].
    + split; [intros _; apply Hguard; reflexivity|reflexivity].
    + intros vid H. rewrite (registrable_id s voter vid H). reflexivity.
    + discriminate.
Qed.

Lemma registerVoter_spec_witness :
  let s := createElection (Some []) in
  let voter := VObject [("id", str "V1"); ("name", str "Mohan"); ("age", num 25)] in
  fst (registerVoter s voter) = with_registered s "V1".
Proof.
  intros s voter.
  apply (proj1 (proj2 (registerVoter_spec s voter)) "V1").
  unfold registrable. repeat split.
  - exists "Mohan". reflexivity.
  - exists (Num 25). split; reflexivity.
  - vm_compute. intros H. inversion H.
Defined.

(** ** [castVote] *)

Lemma votes_assign_own (m : gmap string Z) k n :
  is_Some (m !! k) -> votes_assign m k n = <[k := n]> m.
Proof.
  intros H. unfold votes_assign.
  rewrite (bool_decide_eq_true_2 _ H), andb_false_r. reflexivity.
Qed.

Lemma votes_hasOwnProperty_plain (m : gmap string Z) k :
  m !! "hasOwnProperty" = None ->
  votes_hasOwnProperty m k = Normal (bool_decide (is_Some (m !! to_property_key k))).
Proof.
  intros H. unfold votes_hasOwnProperty. rewrite bool_decide_eq_false_2; [reflexivity|].
  rewrite H. intros [x Hx]. discriminate Hx.
Qed.

Lemma votes_hasOwnProperty_shadowed (m : gmap string Z) k :
  is_Some (m !! "hasOwnProperty") -> votes_hasOwnProperty m k = Throw TypeError.
Proof.
  intros H. unfold votes_hasOwnProperty. rewrite bool_decide_eq_true_2 by exact H. reflexivity.
Qed.

(** The one way in which [castVote] changes the session. *)
Lemma castVote_recorded s vid candidateId onSuccess onError n :
  vid ∈ registered s ->
  votes s !! "hasOwnProperty" = None ->
  votes s !! to_property_key candidateId = Some n ->
  vid ∉ votersWhoVoted s ->
  castVote s (VString vid) candidateId onSuccess onError =
  ({| candidates := candidates s;
      votes := <[to_property_key candidateId := n + 1]> (votes s);
      registered := registered s;
      votersWhoVoted := {[vid]} ∪ votersWhoVoted s |},
   Normal (default noop onSuccess
             (VObject [("voterId", VString vid); ("candidateId", candidateId)]))).
Proof.
  intros Hreg Hown Hk Hv. unfold castVote. cbn [Set_has Set_add].
  rewrite (bool_decide_eq_true_2 _ Hreg). cbn [negb].
  rewrite (votes_hasOwnProperty_plain _ _ Hown).
  rewrite bool_decide_eq_true_2 by (rewrite Hk; eauto).
  rewrite (bool_decide_eq_false_2 _ Hv).
  rewrite votes_assign_own by (rewrite Hk; eauto).
  rewrite Hk. reflexivity.
Qed.

(** Every call either leaves the session as it is or records a vote. *)
Lemma castVote_state s voterId candidateId onSuccess onError :
  fst (castVote s voterId candidateId onSuccess onError) = s \/
  exists vid n,
    voterId = VString vid /\ (vid ∈ registered s) /\ (vid ∉ votersWhoVoted s) /\
    votes s !! "hasOwnProperty" = None /\
    votes s !! to_property_key candidateId = Some n /\
    fst (castVote s voterId candidateId onSuccess onError) =
    {| candidates := candidates s;
       votes := <[to_property_key candidateId := n + 1]> (votes s);
       registered := registered s;
       votersWhoVoted := {[vid]} ∪ votersWhoVoted s |}.
Proof.
  destruct (Set_has (registered s) voterId) eqn:Hreg;
    [|left; unfold castVote; rewrite Hreg; reflexivity].
  destruct (votes s !! "hasOwnProperty") as [x|] eqn:Hown.
  { left. unfold castVote. rewrite Hreg. cbn [negb].
    rewrite votes_hasOwnProperty_shadowed by (rewrite Hown; eauto). reflexivity. }
  destruct (votes s !! to_property_key candidateId) as [n|] eqn:Hk.
  2:{ left. unfold castVote. rewrite Hreg. cbn [negb].
      rewrite (votes_hasOwnProperty_plain _ _ Hown), Hk.
      rewrite bool_decide_eq_false_2; [reflexivity|]. intros [x Hx]. discriminate Hx. }
  destruct (Set_has (votersWhoVoted s) voterId) eqn:Hv.
  { left. unfold castVote. rewrite Hreg. cbn [negb].
    rewrite (votes_hasOwnProperty_plain _ _ Hown), Hk.
    rewrite bool_decide_eq_true_2 by eauto. rewrite Hv. reflexivity. }
  right. apply Set_has_true in Hreg. destruct Hreg as (vid & -> & Hreg).
  cbn [Set_has] in Hv. apply bool_decide_eq_false in Hv.
  exists vid, n. repeat split; try assumption.
  rewrite (castVote_recorded s vid candidateId onSuccess onError n); auto.
Qed.

(** C1.  [castVote] first checks that the voter is registered: if not, it
    calls [onError] with "Voter not registered".  It then calls
    [votes.hasOwnProperty(candidateId)], and here it departs from the
    claim: in a session one of whose candidates is called [hasOwnProperty]
    that call finds the candidate's count and throws, so every vote of a
    registered voter ends in a [TypeError]; and a candidate called
    [__proto__] never becomes a key of [votes], so a vote for it is
    answered with "Candidate does not exist".  In a session whose [votes]
    does not own [hasOwnProperty], and for a candidate id that is a
    primitive, the claim holds: a candidate id that is no key of [votes]
    gives [onError] "Candidate does not exist", a voter who has voted gives
    [onError] "Voter has already voted", and otherwise the count of the
    candidate goes up by one, the voter joins [votersWhoVoted] and
    [onSuccess] receives [{voterId, candidateId}].  The session is left as
    it was on every path but the last, and the result is that of the
    handler called, a handler that is not a function being replaced by
    one that returns [undefined]. *)
Theorem castVote_spec :
  (let s := session_with [candidate_named "hasOwnProperty"] in
   reachable s /\
   castVote s (str "V1") (str "hasOwnProperty") None None = (s, Throw TypeError)) /\
  (let s := session_with [candidate_named "__proto__"] in
   reachable s /\
   castVote s (str "V1") (str "__proto__") None (Some (fun e => e)) =
   (s, Normal (str "Candidate does not exist"))) /\
  forall (s : session) (voterId candidateId : value) (onSuccess onError : callback),
    let ok := default noop onSuccess in
    let err := default noop onError in
    let key := to_property_key candidateId in
    (~ in_set (registered s) voterId ->
       castVote s voterId candidateId onSuccess onError =
       (s, Normal (err (VString "Voter not registered")))) /\
    (in_set (registered s) voterId -> is_Some (votes s !! "hasOwnProperty") ->
       castVote s voterId candidateId onSuccess onError = (s, Throw TypeError)) /\
    (in_set (registered s) voterId -> votes s !! "hasOwnProperty" = None ->
     prints_exactly candidateId ->
       (votes s !! key = None ->
          castVote s voterId candidateId onSuccess onError =
          (s, Normal (err (VString "Candidate does not exist")))) /\
       (is_Some (votes s !! key) -> in_set (votersWhoVoted s) voterId ->
          castVote s voterId candidateId onSuccess onError =
          (s, Normal (err (VString "Voter has already voted")))) /\
       (forall vid n,
          voterId = VString vid -> votes s !! key = Some n -> vid ∉ votersWhoVoted s ->
          castVote s voterId candidateId onSuccess onError =
          ({| candidates := candidates s;
              votes := <[key := n + 1]> (votes s);
              registered := registered s;
              votersWhoVoted := {[vid]} ∪ votersWhoVoted s |},
           Normal (ok (VObject [("voterId", voterId); ("candidateId", candidateId)]))))).
Proof.
  split; [split; [repeat constructor|reflexivity]|].
  split; [split; [repeat constructor|reflexivity]|].
  intros s voterId candidateId onSuccess onError ok err key.
  split; [|split].
  - intros H. apply Set_has_false in H. unfold castVote. rewrite H. reflexivity.
  - intros H Hown. apply Set_has_true in H. unfold castVote. rewrite H. cbn [negb].
    rewrite (votes_hasOwnProperty_shadowed _ _ Hown). reflexivity.
  - intros H Hown _. pose proof H as (vid & -> & Hvid). apply Set_has_true in H.
    split; [|split].
    + intros Hk. unfold castVote. rewrite H. cbn [negb].
      rewrite (votes_hasOwnProperty_plain _ _ Hown). fold key. rewrite Hk.
      rewrite bool_decide_eq_false_2; [reflexivity|]. intros [x Hx]. discriminate Hx.
    + intros Hk Hv. apply Set_has_true in Hv. unfold castVote. rewrite H. cbn [negb].
      rewrite (votes_hasOwnProperty_plain _ _ Hown).
      rewrite (bool_decide_eq_true_2 _ Hk), Hv. reflexivity.
    + intros vid' n [= <-] Hk Hv.
      apply (castVote_recorded s vid candidateId onSuccess onError n); assumption.
Qed.

Lemma castVote_spec_witness :
  let s := with_registered (createElection (Some [sample_C1; sample_C2])) "V1" in
  castVote s (str "V1") (str "C1") (Some (fun r => r)) (Some (fun e => e)) =
  ({| candidates := candidates s;
      votes := <["C1" := 0 + 1]> (votes s);
      registered := registered s;
      votersWhoVoted := {["V1"]} ∪ votersWhoVoted s |},
   Normal (VObject [("voterId", str "V1"); ("candidateId", str "C1")])).
Proof.
  intros s.
  refine (proj2 (proj2 (proj2 (proj2
            (proj2 (proj2 castVote_spec)
               s (str "V1") (str "C1") (Some (fun r => r)) (Some (fun e => e)))) _ _ _))
            "V1" 0 _ _ _).
  - exists "V1". split; [reflexivity|]. vm_compute. tauto.
  - reflexivity.
  - exact I.
  - reflexivity.
  - reflexivity.
  - vm_compute. intros H. inversion H.
Defined.

(** ** The vote count invariant *)

Lemma sum_votes_empty : sum_votes ∅ = 0.
Proof. reflexivity. Qed.

Lemma sum_votes_insert_fresh (m : gmap string Z) k n :
  m !! k = None -> sum_votes (<[k := n]> m) = n + sum_votes m.
Proof.
  intros H. unfold sum_votes.
  apply (map_fold_insert_L (fun _ n total => n + total)); [|exact H].
  intros. lia.
Qed.

Lemma sum_votes_insert (m : gmap string Z) k n n' :
  m !! k = Some n -> sum_votes (<[k := n']> m) = sum_votes m + n' - n.
Proof.
  intros H.
  rewrite <- (insert_delete_id m k n H) at 2.
  rewrite <- (insert_delete_eq m k n').
  rewrite !sum_votes_insert_fresh by apply lookup_delete_eq. lia.
Qed.

(** The counts [createElection] seeds are all zero. *)
Lemma seeded_votes_zero (cs : list Candidate) (m : gmap string Z) :
  (forall k n, m !! k = Some n -> n = 0) ->
  forall k n,
    fold_left (fun votes c =>
                 if truthy (VString (c_id c)) then votes_assign votes (c_id c) 0 else votes)
      cs m !! k = Some n ->
    n = 0.
Proof.
  revert m. induction cs as [|c cs IH]; intros m Hm k n; simpl; [apply Hm|].
  apply IH. intros k' n'.
  destruct (negb (String.eqb (c_id c) "")); [|apply Hm].
  unfold votes_assign. destruct (_ && _)%bool; [apply Hm|].
  rewrite lookup_insert. case_decide; [congruence|apply Hm].
Qed.

Lemma sum_votes_all_zero (m : gmap string Z) :
  (forall k n, m !! k = Some n -> n = 0) -> sum_votes m = 0.
Proof.
  induction m as [|k n m Hk IH] using map_ind; intros H; [reflexivity|].
  rewrite sum_votes_insert_fresh by exact Hk.
  rewrite (H k n) by apply lookup_insert_eq.
  rewrite IH; [reflexivity|].
  intros k' n' Hk'. apply (H k').
  rewrite lookup_insert_ne; [exact Hk'|]. congruence.
Qed.

Lemma invariant_new candidates : vote_invariant (createElection candidates).
Proof.
  unfold vote_invariant, createElection. simpl.
  rewrite sum_votes_all_zero; [reflexivity|].
  apply seeded_votes_zero. intros k n H. rewrite lookup_empty in H. discriminate.
Qed.

Lemma invariant_registerVoter s voter :
  vote_invariant s -> vote_invariant (fst (registerVoter s voter)).
Proof.
  unfold vote_invariant, registerVoter. intros H.
  destruct (_ || _)%bool; simpl; exact H.
Qed.

Lemma invariant_castVote s voterId candidateId onSuccess onError :
  vote_invariant s ->
  vote_invariant (fst (castVote s voterId candidateId onSuccess onError)).
Proof.
  unfold vote_invariant. intros H.
  destruct (castVote_state s voterId candidateId onSuccess onError)
    as [->|(vid & n & _ & _ & Hv & _ & Hk & ->)]; [exact H|]. simpl.
  rewrite (sum_votes_insert _ _ n) by exact Hk.
  rewrite size_union by set_solver. rewrite size_singleton. lia.
Qed.

Lemma invariant_run s c : vote_invariant s -> vote_invariant (run s c).
Proof.
  destruct c; simpl; auto using invariant_registerVoter, invariant_castVote.
Qed.

(** C2.  The counts of [votes] add up to the number of voters in
    [votersWhoVoted]: in the session [createElection] returns, where every
    count is zero and nobody has voted, after any call made on a session
    where it holds, and so in every session that calls can reach. *)
Theorem vote_invariant_holds :
  (forall candidates,
     vote_invariant (createElection candidates) /\
     (forall k n, votes (createElection candidates) !! k = Some n -> n = 0) /\
     votersWhoVoted (createElection candidates) = ∅) /\
  (forall s c, vote_invariant s -> vote_invariant (run s c)) /\
  (forall s, reachable s -> vote_invariant s).
Proof.
  split; [|split].
  - intros candidates. split; [apply invariant_new|]. split; [|reflexivity].
    apply seeded_votes_zero. intros k n H. rewrite lookup_empty in H. discriminate.
  - apply invariant_run.
  - intros s H. induction H as [candidates|s c _ IH].
    + apply invariant_new.
    + apply invariant_run. exact IH.
Qed.

Lemma vote_invariant_holds_witness :
  vote_invariant
    (run (run (createElection (Some [sample_C1; sample_C2]))
            (RegisterVoter (VObject [("id", str "V1"); ("name", str "Mohan"); ("age", num 25)])))
       (CastVote (str "V1") (str "C1") None None)).
Proof.
  apply (proj1 (proj2 vote_invariant_holds)).
  apply (proj1 (proj2 vote_invariant_holds)).
  apply (proj1 (proj1 vote_invariant_holds (Some [sample_C1; sample_C2]))).
Defined.

(** ** [Array.prototype.sort] *)

Section sorting.
Context {A : Type} (cmp : A -> A -> Z).

Lemma sort_insert_perm x l : sort_insert cmp x l ≡ₚ x :: l.
Proof.
  induction l as [|y l IH]; simpl; [reflexivity|].
  destruct (cmp x y <=? 0)%Z; [reflexivity|].
  rewrite IH. apply perm_swap.
Qed.

Lemma insertion_sort_perm l : insertion_sort cmp l ≡ₚ l.
Proof.
  induction l as [|x l IH]; simpl; [reflexivity|].
  rewrite sort_insert_perm. rewrite IH. reflexivity.
Qed.

(** Insertion never moves [x] past an element of its own class, so the
    elements of a class keep their order. *)
Lemma filter_sort_insert (P : A -> Prop) `{forall x, Decision (P x)} x l :
  (forall b, b ∈ l -> P x -> P b -> (cmp x b <= 0)%Z) ->
  filter P (sort_insert cmp x l) = filter P (x :: l).
Proof.
  induction l as [|y l IH]; intros Hclass; simpl; [reflexivity|].
  destruct (cmp x y <=? 0)%Z eqn:E; [reflexivity|].
  apply Z.leb_gt in E.
  rewrite (filter_cons P y), IH, (filter_cons P x), (filter_cons P x (y :: l)),
    (filter_cons P y l).
  - destruct (decide (P x)) as [Hx|Hx], (decide (P y)) as [Hy|Hy]; try reflexivity.
    assert (cmp x y <= 0)%Z by (apply Hclass; [left|assumption|assumption]). lia.
  - intros b Hb. apply Hclass. right. exact Hb.
Qed.

Lemma filter_insertion_sort (P : A -> Prop) `{forall x, Decision (P x)} l :
  (forall a b, a ∈ l -> b ∈ l -> P a -> P b -> (cmp a b <= 0)%Z) ->
  filter P (insertion_sort cmp l) = filter P l.
Proof.
  induction l as [|x l IH]; intros Hclass; simpl; [reflexivity|].
  rewrite filter_sort_insert.
  - rewrite !(filter_cons P x), IH; [reflexivity|].
    intros a b Ha Hb. apply Hclass; right; assumption.
  - intros b Hb. apply Hclass; [left|right].
    rewrite <- (insertion_sort_perm l). exact Hb.
Qed.

Context (L : list A) (Hcmp : consistent_on L cmp).

Lemma cmp_le_total a b : a ∈ L -> b ∈ L -> cmp_le cmp a b \/ cmp_le cmp b a.
Proof.
  intros Ha Hb. unfold cmp_le.
  destruct (Z_le_gt_dec (cmp a b) 0) as [H|H]; [left; exact H|].
  right. assert (cmp b a < 0)%Z; [|lia].
  apply (consistent_flip L cmp Hcmp); [assumption|assumption|lia].
Qed.

Lemma cmp_zero_sym a b : a ∈ L -> b ∈ L -> cmp a b = 0%Z -> cmp b a = 0%Z.
Proof.
  intros Ha Hb H.
  pose proof (consistent_flip L cmp Hcmp a b Ha Hb).
  pose proof (consistent_flip L cmp Hcmp b a Hb Ha). lia.
Qed.

Lemma cmp_class_le x a b :
  x ∈ L -> a ∈ L -> b ∈ L -> cmp x a = 0%Z -> cmp x b = 0%Z -> (cmp a b <= 0)%Z.
Proof.
  intros Hx Ha Hb Hxa Hxb.
  apply (consistent_trans L cmp Hcmp a x b); try assumption; unfold cmp_le.
  - rewrite (cmp_zero_sym x a Hx Ha Hxa). lia.
  - lia.
Qed.

Lemma sort_insert_sorted x l :
  x ∈ L -> (forall y, y ∈ l -> y ∈ L) ->
  StronglySorted (cmp_le cmp) l -> StronglySorted (cmp_le cmp) (sort_insert cmp x l).
Proof.
  intros Hx. induction l as [|y l IH]; intros Hl Hs; simpl.
  - repeat constructor.
  - apply StronglySorted_cons in Hs. destruct Hs as [Hy Hs].
    assert (y ∈ L) as HyL by (apply Hl; left).
    assert (forall z, z ∈ l -> z ∈ L) as HlL by (intros z Hz; apply Hl; right; exact Hz).
    destruct (cmp x y <=? 0)%Z eqn:E.
    + apply Z.leb_le in E. constructor; [constructor; assumption|].
      constructor; [exact E|].
      apply Forall_forall. intros z Hz. rewrite Forall_forall in Hy.
      apply (consistent_trans L cmp Hcmp x y z); auto.
    + apply Z.leb_gt in E. constructor; [apply IH; assumption|].
      rewrite sort_insert_perm. constructor; [|exact Hy].
      destruct (cmp_le_total y x HyL Hx) as [H|H]; [exact H|]. unfold cmp_le in H. lia.
Qed.

Lemma insertion_sort_sorted l :
  (forall y, y ∈ l -> y ∈ L) -> StronglySorted (cmp_le cmp) (insertion_sort cmp l).
Proof.
  induction l as [|x l IH]; intros Hl; simpl; [constructor|].
  apply sort_insert_sorted.
  - apply Hl. left.
  - intros y Hy. apply Hl. right. rewrite <- (insertion_sort_perm l). exact Hy.
  - apply IH. intros y Hy. apply Hl. right. exact Hy.
Qed.

Lemma insertion_sort_stable : stable_sort_of cmp L (insertion_sort cmp L).
Proof.
  split; [apply insertion_sort_perm|]. split; [apply insertion_sort_sorted; auto|].
  intros x Hx. apply filter_insertion_sort.
  intros a b Ha Hb. apply cmp_class_le; assumption.
Qed.

(** A comparator that is consistent on the elements leaves a stable sort
    no choice: two stable sorts of a list are the same list. *)
Lemma stable_sort_unique l1 l2 :
  stable_sort_of cmp L l1 -> stable_sort_of cmp L l2 -> l1 = l2.
Proof.
  intros (Hp1 & Hs1 & Hf1) (Hp2 & Hs2 & Hf2).
  assert (l1 ≡ₚ l2) as Hp by (rewrite Hp1, Hp2; reflexivity).
  assert (forall x, x ∈ L ->
            filter (fun y => cmp x y = 0%Z) l1 = filter (fun y => cmp x y = 0%Z) l2)
    as Hf by (intros x Hx; rewrite Hf1, Hf2 by exact Hx; reflexivity).
  assert (forall x, x ∈ l1 -> x ∈ L) as Hin1 by (intros x Hx; rewrite <- Hp1; exact Hx).
  clear Hp1 Hp2 Hf1 Hf2.
  revert l2 Hp Hs2 Hf. induction Hs1 as [|a l1 Hs1 IH Ha]; intros l2 Hp Hs2 Hf.
  - apply Permutation_nil_l in Hp. congruence.
  - destruct l2 as [|b l2]; [apply Permutation_nil_r in Hp; discriminate|].
    apply StronglySorted_cons in Hs2. destruct Hs2 as [Hb Hs2].
    assert (a ∈ L) as HaL by (apply Hin1; left).
    assert (b ∈ L) as HbL by (apply Hin1; rewrite Hp; left).
    assert (cmp a b = 0%Z) as Hab.
    { assert (cmp_le cmp a b) as H1.
      { assert (b ∈ a :: l1) as Hin by (rewrite Hp; left).
        apply elem_of_cons in Hin. destruct Hin as [->|Hin].
        - destruct (cmp_le_total a a HaL HaL); assumption.
        - rewrite Forall_forall in Ha. apply Ha. exact Hin. }
      assert (cmp_le cmp b a) as H2.
      { assert (a ∈ b :: l2) as Hin by (rewrite <- Hp; left).
        apply elem_of_cons in Hin. destruct Hin as [->|Hin].
        - destruct (cmp_le_total b b HbL HbL); assumption.
        - rewrite Forall_forall in Hb. apply Hb. exact Hin. }
      unfold cmp_le in *.
      pose proof (consistent_flip L cmp Hcmp a b HaL HbL).
      pose proof (consistent_flip L cmp Hcmp b a HbL HaL). lia. }
    assert (cmp a a = 0%Z) as Haa.
    { pose proof (consistent_flip L cmp Hcmp a a HaL HaL). lia. }
    assert (a = b) as <-.
    { pose proof (Hf a HaL) as Hfa.
      rewrite filter_cons_True in Hfa by exact Haa.
      rewrite filter_cons_True in Hfa by exact Hab. congruence. }
    f_equal. apply IH.
    + intros x Hx. apply Hin1. right. exact Hx.
    + eapply Permutation_cons_inv; exact Hp.
    + exact Hs2.
    + intros x Hx. pose proof (Hf x Hx) as Hfx. rewrite !(filter_cons _ a) in Hfx.
      destruct (decide (cmp x a = 0%Z)); congruence.
Qed.
End sorting.

(** Insertion sort is an engine of the kind the statements assume. *)
Lemma insertion_sort_conforming : conforming insertion_sort.
Proof. intros cmp l Hcmp. apply insertion_sort_stable. exact Hcmp. Qed.

(** Whatever the engine, the result on a consistent comparator is the one
    insertion gives. *)
Lemma conforming_unique Array_sort cmp l :
  conforming Array_sort -> consistent_on l cmp -> Array_sort cmp l = insertion_sort cmp l.
Proof.
  intros He Hcmp. apply (stable_sort_unique cmp l Hcmp).
  - apply He. exact Hcmp.
  - apply insertion_sort_stable. exact Hcmp.
Qed.

Lemma consistent_on_equal {A : Type} (l : list A) (cmp : A -> A -> Z) :
  (forall a b, a ∈ l -> b ∈ l -> cmp a b = 0%Z) -> consistent_on l cmp.
Proof.
  intros H. split; unfold cmp_le.
  - intros a b Ha Hb. rewrite (H a b Ha Hb), (H b a Hb Ha). lia.
  - intros a b c Ha Hb Hc _ _. rewrite (H a c Ha Hc). lia.
Qed.

(** The default comparison orders consistently the records whose votes
    are counts. *)
Lemma by_votes_descending_consistent l :
  Forall (fun r => exists n, r_votes r = Counted n) l ->
  consistent_on l by_votes_descending.
Proof.
  intros Hl. rewrite Forall_forall in Hl.
  split; unfold cmp_le, by_votes_descending.
  - intros a b Ha Hb. destruct (Hl a Ha) as [x ->], (Hl b Hb) as [y ->]. lia.
  - intros a b c Ha Hb Hc.
    destruct (Hl a Ha) as [x ->], (Hl b Hb) as [y ->], (Hl c Hc) as [z ->]. lia.
Qed.

(** ** The keys of [votes] *)

Lemma seed_step_keys (m : gmap string Z) c k :
  is_Some ((if truthy (VString (c_id c)) then votes_assign m (c_id c) 0 else m) !! k) <->
  is_Some (m !! k) \/ (c_id c = k /\ k <> "" /\ k <> "__proto__").
Proof.
  cbn [truthy]. destruct (String.eqb (c_id c) "") eqn:E; cbn [negb].
  - apply eqb_string_true in E. split; [auto|].
    intros [H|(H1 & H2 & _)]; [exact H|congruence].
  - apply eqb_string_false in E. unfold votes_assign.
    destruct (String.eqb (c_id c) "__proto__") eqn:P; cbn [andb].
    + apply eqb_string_true in P.
      destruct (bool_decide (is_Some (m !! c_id c))) eqn:B; cbn [negb].
      * apply bool_decide_eq_true in B. rewrite lookup_insert. case_decide.
        -- subst k. split; [intros _; left; exact B|eauto].
        -- split; [auto|]. intros [H'|(H1 & _)]; [exact H'|congruence].
      * split; [auto|]. intros [H'|(H1 & _ & H3)]; [exact H'|congruence].
    + apply eqb_string_false in P. rewrite lookup_insert. case_decide.
      * subst k. split; [intros _; right; auto|eauto].
      * split; [auto|]. intros [H'|(H1 & _)]; [exact H'|congruence].
Qed.

(** The keys [createElection] seeds are the ids that are neither the
    empty string nor [__proto__]. *)
Lemma seeded_votes_keys (cs : list Candidate) (m : gmap string Z) k :
  is_Some (fold_left (fun votes c =>
                        if truthy (VString (c_id c)) then votes_assign votes (c_id c) 0
                        else votes) cs m !! k) <->
  is_Some (m !! k) \/ (k <> "" /\ k <> "__proto__" /\ exists c, c ∈ cs /\ c_id c = k).
Proof.
  revert m. induction cs as [|c cs IH]; intros m; cbn [fold_left].
  - split; [auto|]. intros [H|(_ & _ & c & Hc & _)]; [exact H|inversion Hc].
  - rewrite IH, seed_step_keys. split.
    + intros [[H|(Hid & H1 & H2)]|(H1 & H2 & c' & Hc' & Hid)].
      * left. exact H.
      * right. repeat split; try assumption. exists c. split; [left|exact Hid].
      * right. repeat split; try assumption. exists c'. split; [right; exact Hc'|exact Hid].
    + intros [H|(H1 & H2 & c' & Hc' & Hid)]; [left; left; exact H|].
      apply elem_of_cons in Hc'. destruct Hc' as [->|Hc'].
      * left. right. auto.
      * right. repeat split; try assumption. exists c'. auto.
Qed.

Lemma run_candidates s c : candidates (run s c) = candidates s.
Proof.
  destruct c as [voter|voterId candidateId onSuccess onError|sortFn|]; simpl;
    try reflexivity.
  - unfold registerVoter. destruct (_ || _)%bool; reflexivity.
  - destruct (castVote_state s voterId candidateId onSuccess onError)
      as [->|(vid & n & _ & _ & _ & _ & _ & ->)]; reflexivity.
Qed.

Lemma run_votes_keys s c k : is_Some (votes (run s c) !! k) <-> is_Some (votes s !! k).
Proof.
  destruct c as [voter|voterId candidateId onSuccess onError|sortFn|]; simpl;
    try reflexivity.
  - unfold registerVoter. destruct (_ || _)%bool; reflexivity.
  - destruct (castVote_state s voterId candidateId onSuccess onError)
      as [->|(vid & n & _ & _ & _ & _ & Hk & ->)]; [reflexivity|]. simpl.
    rewrite lookup_insert. case_decide; [subst k|reflexivity].
    rewrite Hk. split; eauto.
Qed.

Lemma reachable_votes_keys s k :
  reachable s ->
  (is_Some (votes s !! k) <->
   k <> "" /\ k <> "__proto__" /\ exists c, c ∈ candidates s /\ c_id c = k).
Proof.
  intros H. induction H as [cands|s c _ IH].
  - unfold createElection. simpl. rewrite seeded_votes_keys, lookup_empty.
    split; [intros [[x Hx]|H]; [discriminate|exact H]|auto].
  - rewrite run_votes_keys, run_candidates. exact IH.
Qed.

(** ** [getResults] *)

Lemma filter_agree {A : Type} (P Q : A -> Prop)
    `{forall x, Decision (P x)} `{forall x, Decision (Q x)} (l : list A) :
  (forall x, x ∈ l -> P x <-> Q x) -> filter P l = filter Q l.
Proof.
  induction l as [|a l IH]; intros Hl; [reflexivity|].
  rewrite !filter_cons.
  assert (P a <-> Q a) as Ha by (apply Hl; left).
  rewrite IH by (intros x Hx; apply Hl; right; exact Hx).
  destruct (decide (P a)), (decide (Q a)); tauto.
Qed.

Lemma filter_none {A : Type} (P : A -> Prop) `{forall x, Decision (P x)} (l : list A) :
  Forall (fun x => ~ P x) l -> filter P l = [].
Proof.
  intros Hl. induction Hl as [|a l Ha _ IH]; [reflexivity|].
  rewrite filter_cons_False by exact Ha. exact IH.
Qed.


Lemma Object_prototype_keys_nonempty k : k ∈ Object_prototype_keys -> k <> "".
Proof.
  intros H ->. apply list_elem_of_In in H. simpl in H. intuition discriminate.
Qed.

(** In a reachable session the record of a candidate that is not called
    [__proto__] shows the candidate's count. *)
Lemma result_record_counted s c :
  reachable s -> c ∈ candidates s -> c_id c <> "__proto__" ->
  result_record s c =
  {| r_id := c_id c; r_name := c_name c; r_party := c_party c;
     r_votes := Counted (tally s c) |}.
Proof.
  intros Hreach Hc Hproto. unfold result_record, tally, votes_read. f_equal.
  destruct (votes s !! c_id c) as [n|] eqn:E; simpl.
  - destruct (n =? 0)%Z eqn:Z0; [apply Z.eqb_eq in Z0; subst|]; reflexivity.
  - destruct (bool_decide (c_id c ∈ Object_prototype_keys)) eqn:B; [|reflexivity].
    apply bool_decide_eq_true in B. exfalso.
    assert (is_Some (votes s !! c_id c)) as [x Hx]; [|congruence].
    apply (reachable_votes_keys s _ Hreach).
    repeat split; [apply Object_prototype_keys_nonempty; exact B|exact Hproto|eauto].
Qed.

Lemma records_counted s :
  reachable s -> no_proto_candidate s ->
  map (result_record s) (candidates s) =
  map (fun c => {| r_id := c_id c; r_name := c_name c; r_party := c_party c;
                   r_votes := Counted (tally s c) |}) (candidates s).
Proof.
  intros Hreach Hproto. unfold no_proto_candidate in Hproto.
  rewrite Forall_forall in Hproto.
  apply map_ext_in. intros c Hc. apply list_elem_of_In in Hc.
  apply result_record_counted; auto.
Qed.

Lemma records_are_counts s :
  reachable s -> no_proto_candidate s ->
  Forall (fun r => exists n, r_votes r = Counted n) (map (result_record s) (candidates s)).
Proof.
  intros Hreach Hproto. rewrite (records_counted s Hreach Hproto).
  apply Forall_forall. intros r Hr. apply list_elem_of_In, in_map_iff in Hr.
  destruct Hr as (c & <- & _). eauto.
Qed.

(** A stable sort by descending count keeps the records of one count in
    their order. *)
Lemma descending_keeps_classes (l sorted : list ResultRecord) n :
  Forall (fun r => exists m, r_votes r = Counted m) l ->
  stable_sort_of by_votes_descending l sorted ->
  filter (fun r => r_votes r = Counted n) sorted = filter (fun r => r_votes r = Counted n) l.
Proof.
  intros Hl (Hperm & _ & Hclass).
  assert (Forall (fun r => exists m, r_votes r = Counted m) sorted) as Hs
    by (rewrite Hperm; exact Hl).
  destruct (decide (Exists (fun r => r_votes r = Counted n) l)) as [Hex|Hno].
  - apply Exists_exists in Hex. destruct Hex as (x & Hx & Hn).
    assert (forall l', Forall (fun r => exists m, r_votes r = Counted m) l' ->
              filter (fun r => r_votes r = Counted n) l' =
              filter (fun y => by_votes_descending x y = 0%Z) l') as Hsame.
    { intros l' Hl'. rewrite Forall_forall in Hl'. apply filter_agree.
      intros y Hy. destruct (Hl' y Hy) as [m Hm].
      unfold by_votes_descending. rewrite Hm, Hn. split.
      - intros [= ->]. lia.
      - intros H. f_equal. lia. }
    rewrite (Hsame l Hl), (Hsame sorted Hs). apply Hclass. exact Hx.
  - apply not_Exists_Forall in Hno; [|intros r; apply _].
    rewrite (filter_none _ l) by exact Hno.
    apply filter_none. rewrite Hperm. exact Hno.
Qed.





(** ** [getWinner] *)

Lemma votes_nonneg s : reachable s -> forall k n, votes s !! k = Some n -> (0 <= n)%Z.
Proof.
  intros H. induction H as [candidates|s c _ IH]; intros k n Hk.
  - assert (n = 0%Z) as ->; [|lia].
    revert Hk. apply seeded_votes_zero.
    intros k' n' H'. rewrite lookup_empty in H'. discriminate.
  - destruct c as [voter|voterId candidateId onSuccess onError|sortFn|]; simpl in Hk;
      try (apply (IH k n Hk)).
    + unfold registerVoter in Hk. destruct (_ || _)%bool; apply (IH k n Hk).
    + destruct (castVote_state s voterId candidateId onSuccess onError)
        as [E|(vid & n0 & _ & _ & _ & _ & Hn0 & E)]; rewrite E in Hk;
        [apply (IH k n Hk)|].
      simpl in Hk. rewrite lookup_insert in Hk. case_decide; [|apply (IH k n Hk)].
      injection Hk as <-. specialize (IH _ _ Hn0). lia.
Qed.

Lemma tally_nonneg s c : reachable s -> (0 <= tally s c)%Z.
Proof.
  intros H. unfold tally.
  destruct (votes s !! c_id c) as [n|] eqn:E; simpl; [|lia].
  exact (votes_nonneg s H _ _ E).
Qed.

(** One turn of the loop, read on the level of the record: the running
    maximum never falls below the -1 it starts from. *)
Lemma winner_step_level acc r :
  (-1 <= fst acc)%Z ->
  winner_step acc r = if (level r >? fst acc)%Z then (level r, Some r) else acc.
Proof.
  intros H. unfold winner_step, level. destruct (r_votes r); [reflexivity|].
  destruct (-1 >? fst acc)%Z eqn:E; [|reflexivity]. apply Z.gtb_lt in E. lia.
Qed.

(** The loop of [getWinner]: while the levels stay below [M] so does the
    running maximum; once the maximum is [M] and no later level exceeds it,
    the winner stays. *)
Lemma winner_loop_below M pre acc :
  Forall (fun y => (level y < M)%Z) pre -> (-1 <= fst acc < M)%Z ->
  (-1 <= fst (fold_left winner_step pre acc) < M)%Z.
Proof.
  intros Hpre. revert acc. induction Hpre as [|y pre Hy _ IH]; intros acc Hacc; simpl.
  - exact Hacc.
  - apply IH. rewrite winner_step_level by lia.
    destruct (level y >? fst acc)%Z eqn:E; simpl; [|exact Hacc].
    apply Z.gtb_lt in E. lia.
Qed.

Lemma winner_loop_settled M post w :
  (-1 <= M)%Z ->
  Forall (fun y => (level y <= M)%Z) post ->
  fold_left winner_step post (M, w) = (M, w).
Proof.
  intros HM Hpost. induction Hpost as [|y post Hy _ IH]; simpl; [reflexivity|].
  rewrite winner_step_level by exact HM. simpl.
  destruct (level y >? M)%Z eqn:E; [|exact IH].
  apply Z.gtb_lt in E. lia.
Qed.

Lemma winner_loop_first_max pre x post acc :
  Forall (fun y => (level y < level x)%Z) pre ->
  Forall (fun y => (level y <= level x)%Z) post ->
  (-1 <= fst acc < level x)%Z ->
  fold_left winner_step (pre ++ x :: post) acc = (level x, Some x).
Proof.
  intros Hpre Hpost Hacc. rewrite fold_left_app. simpl.
  pose proof (winner_loop_below (level x) pre acc Hpre Hacc) as Hbelow.
  rewrite winner_step_level by lia.
  destruct (level x >? fst (fold_left winner_step pre acc))%Z eqn:E.
  - apply winner_loop_settled; [lia|exact Hpost].
  - rewrite Z.gtb_ltb in E. apply Z.ltb_ge in E. lia.
Qed.

(** A list that is not empty splits at the first element of maximal
    level. *)
Lemma first_max_exists (l : list ResultRecord) :
  l <> [] ->
  exists pre x post,
    l = pre ++ x :: post /\
    Forall (fun y => (level y < level x)%Z) pre /\
    Forall (fun y => (level y <= level x)%Z) post.
Proof.
  induction l as [|a l IH]; intros Hne; [congruence|].
  destruct l as [|b l].
  - exists [], a, []. repeat split; constructor.
  - destruct IH as (pre & x & post & Heq & Hpre & Hpost); [discriminate|].
    destruct (Z_lt_ge_dec (level a) (level x)) as [Hlt|Hge].
    + exists (a :: pre), x, post. rewrite Heq. repeat split; [|exact Hpost].
      constructor; assumption.
    + exists [], a, (b :: l). repeat split; [constructor|].
      rewrite Heq. apply Forall_app. split.
      * eapply Forall_impl; [exact Hpre|]. simpl. intros y Hy. lia.
      * constructor; [lia|].
        eapply Forall_impl; [exact Hpost|]. simpl. intros y Hy. lia.
Qed.

Lemma filter_head_split {A : Type} (P : A -> Prop) `{forall x, Decision (P x)} l x rest :
  filter P l = x :: rest ->
  exists pre post, l = pre ++ x :: post /\ Forall (fun y => ~ P y) pre /\ P x.
Proof.
  induction l as [|a l IH]; [discriminate|].
  rewrite filter_cons. destruct (decide (P a)) as [Ha|Ha].
  - intros [= <- _]. exists [], l. repeat split; [constructor|exact Ha].
  - intros Hf. destruct (IH Hf) as (pre & post & -> & Hpre & Hx).
    exists (a :: pre), post. repeat split; [constructor; assumption|exact Hx].
Qed.

Lemma forallb_zero_votes (l : list ResultRecord) :
  forallb (fun r => is_zero (r_votes r)) l = true <->
  Forall (fun r => r_votes r = Counted 0) l.
Proof.
  assert (forall r, is_zero (r_votes r) = true <-> r_votes r = Counted 0) as Hz.
  { intros r. destruct (r_votes r) as [n|k]; simpl.
    - rewrite Z.eqb_eq. split; [intros ->; reflexivity|intros [= ->]; reflexivity].
    - split; discriminate. }
  rewrite forallb_forall, Forall_forall. split; intros H r Hr.
  - apply Hz. apply H. apply list_elem_of_In. exact Hr.
  - apply Hz. apply H. apply list_elem_of_In. exact Hr.
Qed.

(** What the default call of [getResults] returns in a reachable session
    without a candidate called [__proto__]: the records of the candidates,
    each with its count, sorted stably by descending count. *)
Lemma getResults_default_stable Array_sort s :
  conforming Array_sort -> reachable s -> no_proto_candidate s ->
  Forall (fun r => exists n, r_votes r = Counted n) (map (result_record s) (candidates s)) /\
  stable_sort_of by_votes_descending (map (result_record s) (candidates s))
    (getResults Array_sort s None).
Proof.
  intros Hsort Hreach Hproto.
  pose proof (records_are_counts s Hreach Hproto) as Hcounts.
  split; [exact Hcounts|]. apply Hsort. apply by_votes_descending_consistent. exact Hcounts.
Qed.

Lemma record_level s c :
  reachable s -> c ∈ candidates s -> c_id c <> "__proto__" ->
  r_votes (result_record s c) = Counted (tally s c) /\ level (result_record s c) = tally s c.
Proof.
  intros Hreach Hc Hproto. unfold level.
  rewrite (result_record_counted s c Hreach Hc Hproto). split; reflexivity.
Qed.

(** The guard of [getWinner], read on the candidates. *)
Lemma getWinner_guard Array_sort s :
  conforming Array_sort -> reachable s -> no_proto_candidate s ->
  (Nat.eqb (length (getResults Array_sort s None)) 0
   || forallb (fun r => is_zero (r_votes r)) (getResults Array_sort s None))%bool = true
  <-> candidates s = [] \/ forall c, c ∈ candidates s -> tally s c = 0%Z.
Proof.
  intros Hsort Hreach Hproto.
  destruct (getResults_default_stable Array_sort s Hsort Hreach Hproto) as (_ & Hperm & _).
  pose proof Hproto as Hids. unfold no_proto_candidate in Hids. rewrite Forall_forall in Hids.
  rewrite orb_true_iff, Nat.eqb_eq, forallb_zero_votes, Hperm, length_map.
  rewrite Forall_forall. split.
  - intros [Hlen|Hall].
    + left. destruct (candidates s); [reflexivity|discriminate].
    + right. intros c Hc.
      assert (r_votes (result_record s c) = Counted 0) as Hzero.
      { apply Hall. apply list_elem_of_In, in_map, list_elem_of_In, Hc. }
      rewrite (proj1 (record_level s c Hreach Hc (Hids c Hc))) in Hzero. congruence.
  - intros [Hnil|Hall].
    + left. rewrite Hnil. reflexivity.
    + right. intros r Hr. apply list_elem_of_In, in_map_iff in Hr.
      destruct Hr as (c & <- & Hc). apply list_elem_of_In in Hc.
      rewrite (proj1 (record_level s c Hreach Hc (Hids c Hc))), (Hall c Hc). reflexivity.
Qed.

(** Past the guard, [getWinner] returns the record of the first candidate,
    in candidate order, that stands at the maximal count. *)
Lemma getWinner_first_max Array_sort s :
  conforming Array_sort -> reachable s -> no_proto_candidate s ->
  candidates s <> [] ->
  exists before c after,
    candidates s = before ++ c :: after /\
    snd (fold_left winner_step (getResults Array_sort s None) (-1, None)) =
      Some (result_record s c) /\
    (forall c', c' ∈ candidates s -> (tally s c' <= tally s c)%Z) /\
    (forall c', c' ∈ before -> (tally s c' < tally s c)%Z).
Proof.
  intros Hsort Hreach Hproto Hne.
  destruct (getResults_default_stable Array_sort s Hsort Hreach Hproto) as (Hcounts & Hst).
  pose proof (proj1 Hst) as Hperm.
  pose proof Hproto as Hids. unfold no_proto_candidate in Hids. rewrite Forall_forall in Hids.
  destruct (first_max_exists (getResults Array_sort s None))
    as (pre & x & post & Heq & Hpre & Hpost).
  { intros Hnil. rewrite Hnil in Hperm. symmetry in Hperm.
    apply Permutation_nil_r in Hperm. destruct (candidates s); [congruence|discriminate]. }
  (* every record stands at most at the level of [x] *)
  assert (Forall (fun y => (level y <= level x)%Z) (map (result_record s) (candidates s)))
    as Hmax.
  { rewrite <- Hperm, Heq. apply Forall_app. split.
    - eapply Forall_impl; [exact Hpre|]. simpl. intros y Hy. lia.
    - constructor; [lia|exact Hpost]. }
  (* the votes of [x] are a count *)
  assert (exists n, r_votes x = Counted n) as [n Hn].
  { rewrite Forall_forall in Hcounts. apply Hcounts. rewrite <- Hperm, Heq.
    apply elem_of_app. right. left. }
  assert (level x = n) as Hlevel by (unfold level; rewrite Hn; reflexivity).
  (* [x] heads its class in the sorted array, hence in candidate order *)
  pose proof (descending_keeps_classes _ _ n Hcounts Hst) as Hstable.
  rewrite Heq, filter_app, filter_cons_True in Hstable by exact Hn.
  assert (filter (fun r => r_votes r = Counted n) pre = []) as Hnone.
  { apply filter_none. eapply Forall_impl; [exact Hpre|]. simpl.
    intros y Hy Hyn. unfold level at 1 in Hy. rewrite Hyn in Hy. lia. }
  rewrite Hnone in Hstable. simpl in Hstable. symmetry in Hstable.
  destruct (filter_head_split _ _ _ _ Hstable) as (rpre & rpost & Hsplit & Hrpre & _).
  apply map_eq_app in Hsplit. destruct Hsplit as (before & tl & Hcands & Hbefore & Htl).
  apply map_eq_cons in Htl. destruct Htl as (c & after & -> & Hc & _).
  assert (c ∈ candidates s) as Hcin.
  { rewrite Hcands. apply elem_of_app. right. left. }
  destruct (record_level s c Hreach Hcin (Hids c Hcin)) as (_ & Hclevel).
  rewrite Hc in Hclevel.
  exists before, c, after. split; [exact Hcands|]. split; [|split].
  - rewrite Heq, winner_loop_first_max; [simpl; congruence|exact Hpre|exact Hpost|].
    simpl. pose proof (tally_nonneg s c Hreach). lia.
  - intros c' Hc'.
    destruct (record_level s c' Hreach Hc' (Hids c' Hc')) as (_ & <-).
    rewrite <- Hclevel. rewrite Forall_forall in Hmax. apply Hmax.
    apply list_elem_of_In, in_map, list_elem_of_In, Hc'.
  - intros c' Hc'.
    assert (c' ∈ candidates s) as Hc'in.
    { rewrite Hcands. apply elem_of_app. left. exact Hc'. }
    destruct (record_level s c' Hreach Hc'in (Hids c' Hc'in)) as (Hvotes & Hlev).
    assert (result_record s c' ∈ rpre) as Hin.
    { rewrite <- Hbefore. apply list_elem_of_In, in_map, list_elem_of_In, Hc'. }
    rewrite Forall_forall in Hrpre. specialize (Hrpre _ Hin).
    rewrite Forall_forall in Hmax.
    assert (level (result_record s c') <= level x)%Z as Hle.
    { apply Hmax. apply list_elem_of_In, in_map, list_elem_of_In. exact Hc'in. }
    rewrite Hlev, Hlevel in Hle. rewrite <- Hclevel, Hlevel.
    assert (tally s c' <> n) as Hneq; [|lia].
    intros Heqn. apply Hrpre. cbv beta. rewrite Hvotes, Heqn. reflexivity.
Qed.

(** C4.  In a reachable session none of whose candidates is called
    [__proto__], [getWinner] returns [null] exactly when there is no
    candidate or every candidate stands at zero; otherwise it returns the
    record of the first candidate, in the order the candidates were given,
    whose count is the highest: no candidate has more, and every earlier
    one has less.  A candidate called [__proto__] breaks the first half:
    its count is never stored and reads back as [Object.prototype], which
    is not 0, so that with the candidates C1 and [__proto__] and no vote
    cast [getWinner] returns the record of C1, with 0 votes. *)
Theorem getWinner_spec :
  (forall Array_sort, conforming Array_sort ->
     let s := createElection (Some [sample_C1; candidate_named "__proto__"]) in
     reachable s /\
     (forall c, c ∈ candidates s -> default 0 (votes s !! c_id c) = 0%Z) /\
     getWinner Array_sort s =
     Some {| r_id := "C1"; r_name := "Sarpanch Ram"; r_party := "Janata";
             r_votes := Counted 0 |}) /\
  (forall Array_sort s,
     conforming Array_sort -> reachable s -> no_proto_candidate s ->
     let count := fun c => default 0 (votes s !! c_id c) in
     (getWinner Array_sort s = None <->
        candidates s = [] \/ forall c, c ∈ candidates s -> count c = 0%Z) /\
     (getWinner Array_sort s <> None ->
        exists before c after,
          candidates s = before ++ c :: after /\
          getWinner Array_sort s =
          Some {| r_id := c_id c; r_name := c_name c; r_party := c_party c;
                  r_votes := Counted (count c) |} /\
          (forall c', c' ∈ candidates s -> (count c' <= count c)%Z) /\
          (forall c', c' ∈ before -> (count c' < count c)%Z))).
Proof.
  split.
  - intros Array_sort Hsort s. split; [constructor|]. split.
    + intros c Hc. apply list_elem_of_In in Hc. simpl in Hc.
      destruct Hc as [<-|[<-|[]]]; reflexivity.
    + unfold getWinner, getResults.
      rewrite (conforming_unique Array_sort _ _ Hsort); [reflexivity|].
      apply consistent_on_equal. intros a b Ha Hb.
      apply list_elem_of_In in Ha, Hb. simpl in Ha, Hb.
      destruct Ha as [<-|[<-|[]]], Hb as [<-|[<-|[]]]; reflexivity.
  - intros Array_sort s Hsort Hreach Hproto count.
    change count with (tally s).
    pose proof (getWinner_guard Array_sort s Hsort Hreach Hproto) as Hguard.
    unfold getWinner.
    destruct (Nat.eqb (length (getResults Array_sort s None)) 0
              || forallb (fun r => is_zero (r_votes r)) (getResults Array_sort s None))%bool.
    + split; [|congruence]. split; [intros _; apply Hguard; reflexivity|reflexivity].
    + assert (candidates s <> []) as Hne.
      { intros Hnil. assert (false = true) by (apply Hguard; left; exact Hnil).
        discriminate. }
      destruct (getWinner_first_max Array_sort s Hsort Hreach Hproto Hne)
        as (before & c & after & H1 & H2 & H3 & H4).
      assert (c ∈ candidates s) as Hc.
      { rewrite H1. apply elem_of_app. right. left. }
      unfold no_proto_candidate in Hproto. rewrite Forall_forall in Hproto.
      rewrite (result_record_counted s c Hreach Hc (Hproto c Hc)) in H2.
      split.
      * split; [rewrite H2; discriminate|].
        intros H. apply Hguard in H. discriminate H.
      * intros _. exists before, c, after. auto.
Qed.

Lemma getWinner_spec_witness :
  let s := tied_session in
  let count := fun c => default 0 (votes s !! c_id c) in
  getWinner insertion_sort s =
    Some {| r_id := "C2"; r_name := "Pradhan Sita"; r_party := "Lok";
            r_votes := Counted 1 |} /\
  (getWinner insertion_sort s = None <->
     candidates s = [] \/ forall c, c ∈ candidates s -> count c = 0%Z) /\
  (getWinner insertion_sort s <> None ->
     exists before c after,
       candidates s = before ++ c :: after /\
       getWinner insertion_sort s =
       Some {| r_id := c_id c; r_name := c_name c; r_party := c_party c;
               r_votes := Counted (count c) |} /\
       (forall c', c' ∈ candidates s -> (count c' <= count c)%Z) /\
       (forall c', c' ∈ before -> (count c' < count c)%Z)).
Proof.
  intros s count. split; [reflexivity|].
  apply (proj2 getWinner_spec insertion_sort s insertion_sort_conforming).
  - repeat constructor.
  - repeat constructor; discriminate.
Defined.

(** The end-to-end run of the documentation, on the engine that sorts by
    insertion: the cast returns the receipt, [getResults] lists C1 with
    one vote before C2 with none, [getWinner] returns the record of C1,
    and a second vote of V1 is refused. *)
Example end_to_end :
  let s0 := createElection (Some [sample_C1; sample_C2]) in
  let reg := registerVoter s0 sample_registration in
  let cast := castVote (fst reg) (str "V1") (str "C1") (Some (fun r => r)) (Some (fun e => e)) in
  snd reg = true /\
  snd cast = Normal (VObject [("voterId", str "V1"); ("candidateId", str "C1")]) /\
  getResults insertion_sort (fst cast) None =
    [ {| r_id := "C1"; r_name := "Sarpanch Ram"; r_party := "Janata"; r_votes := Counted 1 |};
      {| r_id := "C2"; r_name := "Pradhan Sita"; r_party := "Lok"; r_votes := Counted 0 |} ] /\
  getWinner insertion_sort (fst cast) =
    Some {| r_id := "C1"; r_name := "Sarpanch Ram"; r_party := "Janata";
            r_votes := Counted 1 |} /\
  snd (castVote (fst cast) (str "V1") (str "C2") (Some (fun r => r)) (Some (fun e => e))) =
    Normal (str "Voter has already voted").
Proof. vm_compute. repeat split. Qed.

(** ** Further invariants of a session *)

(** X1.  The keys of [votes] are, in every reachable session, the ids of
    the candidates other than the empty string, which the seeding loop
    skips, and [__proto__], which an assignment cannot create. *)
Theorem votes_keys_are_candidate_ids (s : session) (k : string) :
  reachable s ->
  (is_Some (votes s !! k) <->
   k <> "" /\ k <> "__proto__" /\ exists c, c ∈ candidates s /\ c_id c = k).
Proof.
  intros H. induction H as [cands|s c _ IH].
  - unfold createElection. simpl. rewrite seeded_votes_keys, lookup_empty.
    split; [intros [[x Hx]|H]; [discriminate|exact H]|auto].
  - rewrite run_votes_keys, run_candidates. exact IH.
Qed.

Lemma votes_keys_are_candidate_ids_witness :
  let s := session_voted [candidate_named ""; candidate_named "__proto__"; sample_C1] "C1" in
  (is_Some (votes s !! "C1") <->
   "C1" <> "" /\ "C1" <> "__proto__" /\ exists c, c ∈ candidates s /\ c_id c = "C1") /\
  votes s !! "" = None /\ votes s !! "__proto__" = None.
Proof.
  intros s. split; [|split; reflexivity].
  apply (votes_keys_are_candidate_ids s "C1"). repeat constructor.
Defined.

(** X2.  In every reachable session a voter that has voted is
    registered. *)
Theorem voted_are_registered (s : session) :
  reachable s -> votersWhoVoted s ⊆ registered s.
Proof.
  intros H. induction H as [cands|s c _ IH]; [set_solver|].
  destruct c as [voter|voterId candidateId onSuccess onError|sortFn|]; simpl;
    try exact IH.
  - unfold registerVoter. destruct (_ || _)%bool; simpl; [exact IH|].
    destruct (get voter "id"); simpl; set_solver.
  - destruct (castVote_state s voterId candidateId onSuccess onError)
      as [->|(vid & n & _ & Hvid & _ & _ & _ & ->)]; [exact IH|]. simpl.
    apply union_subseteq. split; [|exact IH].
    apply singleton_subseteq_l. exact Hvid.
Qed.

Lemma voted_are_registered_witness :
  votersWhoVoted sample_session ⊆ registered sample_session.
Proof.
  apply (voted_are_registered sample_session). repeat constructor.
Defined.

(** X3.  Once a vote of a voter has been recorded, a further vote of the
    same voter for a candidate id that [votes] knows calls [onError] with
    "Voter has already voted" and leaves the session as it is.  (A vote is
    recorded only in a session whose [votes] does not own
    [hasOwnProperty].) *)
Theorem second_vote_rejected (s : session) (vid : string) (first second : value)
    (onSuccess onError onSuccess' onError' : callback) :
  vid ∈ registered s ->
  votes s !! "hasOwnProperty" = None ->
  is_Some (votes s !! to_property_key first) ->
  vid ∉ votersWhoVoted s ->
  is_Some (votes s !! to_property_key second) ->
  let s' := fst (castVote s (VString vid) first onSuccess onError) in
  vid ∈ votersWhoVoted s' /\
  castVote s' (VString vid) second onSuccess' onError' =
  (s', Normal (default noop onError' (VString "Voter has already voted"))).
Proof.
  intros Hreg Hown [n Hfirst] Hvoted Hsecond s'.
  assert (s' = {| candidates := candidates s;
                  votes := <[to_property_key first := n + 1]> (votes s);
                  registered := registered s;
                  votersWhoVoted := {[vid]} ∪ votersWhoVoted s |}) as ->.
  { unfold s'. rewrite (castVote_recorded s vid first onSuccess onError n); auto. }
  split; [simpl; set_solver|].
  unfold castVote. cbn [Set_has registered votes votersWhoVoted].
  rewrite (bool_decide_eq_true_2 _ Hreg). cbn [negb].
  rewrite votes_hasOwnProperty_plain.
  - rewrite bool_decide_eq_true_2.
    + rewrite bool_decide_eq_true_2 by set_solver. reflexivity.
    + rewrite lookup_insert. case_decide; [eauto|exact Hsecond].
  - rewrite lookup_insert. case_decide as E; [|exact Hown].
    rewrite <- E, Hfirst in Hown. discriminate Hown.
Qed.

Lemma second_vote_rejected_witness :
  let s := with_registered (createElection (Some [sample_C1; sample_C2])) "V1" in
  let s' := fst (castVote s (str "V1") (str "C1") None None) in
  "V1" ∈ votersWhoVoted s' /\
  castVote s' (str "V1") (str "C2") None (Some (fun e => e)) =
  (s', Normal (str "Voter has already voted")).
Proof.
  intros s.
  apply (second_vote_rejected s "V1" (str "C1") (str "C2") None None None (Some (fun e => e))).
  - vm_compute. tauto.
  - reflexivity.
  - vm_compute. eauto.
  - vm_compute. intros H. inversion H.
  - vm_compute. eauto.
Defined.

(** ** A session over its lifetime *)

Lemma reachable_invariant s : reachable s -> vote_invariant s.
Proof.
  intros H. induction H as [cands|s c _ IH]; [apply invariant_new|].
  apply invariant_run. exact IH.
Qed.

Lemma reachable_voted_registered s : reachable s -> votersWhoVoted s ⊆ registered s.
Proof.
  intros H. induction H as [cands|s c _ IH]; [apply empty_subseteq|].
  destruct c as [voter|voterId candidateId onSuccess onError|sortFn|]; simpl;
    try exact IH.
  - unfold registerVoter. destruct (_ || _)%bool; simpl; [exact IH|].
    destruct (get voter "id"); simpl; try exact IH.
    etrans; [exact IH|]. apply union_subseteq_r.
  - destruct (castVote_state s voterId candidateId onSuccess onError)
      as [->|(vid & n & _ & Hvid & _ & _ & _ & ->)]; [exact IH|]. simpl.
    apply union_subseteq. split; [|exact IH].
    apply singleton_subseteq_l. exact Hvid.
Qed.

Lemma sum_votes_nonneg (m : gmap string Z) :
  (forall k n, m !! k = Some n -> (0 <= n)%Z) -> (0 <= sum_votes m)%Z.
Proof.
  induction m as [|k n m Hk IH] using map_ind; intros H; [reflexivity|].
  rewrite sum_votes_insert_fresh by exact Hk.
  assert (0 <= n)%Z by (apply (H k); apply lookup_insert_eq).
  assert (0 <= sum_votes m)%Z; [|lia].
  apply IH. intros k' n' Hk'. apply (H k').
  rewrite lookup_insert_ne; [exact Hk'|]. congruence.
Qed.

Lemma sum_votes_delete (m : gmap string Z) k :
  sum_votes m = (default 0 (m !! k) + sum_votes (delete k m))%Z.
Proof.
  destruct (m !! k) as [n|] eqn:E; simpl.
  - rewrite <- (insert_delete_id m k n E) at 1.
    apply sum_votes_insert_fresh. apply lookup_delete_eq.
  - rewrite delete_id by exact E. lia.
Qed.

Lemma count_le_sum (m : gmap string Z) k n :
  (forall k n, m !! k = Some n -> (0 <= n)%Z) ->
  m !! k = Some n -> (n <= sum_votes m)%Z.
Proof.
  intros Hm Hk. rewrite (sum_votes_delete m k), Hk. simpl.
  assert (0 <= sum_votes (delete k m))%Z; [|lia].
  apply sum_votes_nonneg. intros k' n' H'.
  apply lookup_delete_Some in H'. destruct H' as [_ H']. exact (Hm k' n' H').
Qed.

(** X5.  In every reachable session no count is negative, no candidate
    has more votes than there are voters who voted, and the votes add up to
    at most the number of registered voters. *)
Theorem votes_are_bounded (s : session) :
  reachable s ->
  (forall k n, votes s !! k = Some n ->
     (0 <= n <= Z.of_nat (size (votersWhoVoted s)))%Z) /\
  (sum_votes (votes s) <= Z.of_nat (size (registered s)))%Z.
Proof.
  intros H. pose proof (reachable_invariant s H) as Hinv. unfold vote_invariant in Hinv.
  split.
  - intros k n Hk. split; [exact (votes_nonneg s H k n Hk)|].
    rewrite <- Hinv. apply (count_le_sum _ k); [exact (votes_nonneg s H)|exact Hk].
  - rewrite Hinv. apply inj_le. apply subseteq_size.
    apply reachable_voted_registered. exact H.
Qed.

Lemma votes_are_bounded_witness :
  (forall k n, votes sample_session !! k = Some n ->
     (0 <= n <= Z.of_nat (size (votersWhoVoted sample_session)))%Z) /\
  (sum_votes (votes sample_session) <= Z.of_nat (size (registered sample_session)))%Z.
Proof. apply (votes_are_bounded sample_session). repeat constructor. Defined.

(** X6.  No call removes anything: after any call the candidate list is
    the same, every registered voter is still registered, every voter who
    voted still has, and no count has gone down. *)
Theorem run_is_monotone (s : session) (c : call) :
  candidates (run s c) = candidates s /\
  registered s ⊆ registered (run s c) /\
  votersWhoVoted s ⊆ votersWhoVoted (run s c) /\
  (forall k n, votes s !! k = Some n ->
     exists n', votes (run s c) !! k = Some n' /\ (n <= n')%Z).
Proof.
  split; [apply run_candidates|].
  destruct c as [voter|voterId candidateId onSuccess onError|sortFn|]; simpl;
    try (repeat split; [reflexivity|reflexivity|intros k n Hk; exists n; split; [exact Hk|lia]]).
  - unfold registerVoter. destruct (_ || _)%bool; simpl.
    + repeat split; [reflexivity|reflexivity|]. intros k n Hk. exists n. split; [exact Hk|lia].
    + repeat split; [|reflexivity|intros k n Hk; exists n; split; [exact Hk|lia]].
      destruct (get voter "id"); simpl; try reflexivity. apply union_subseteq_r.
  - destruct (castVote_state s voterId candidateId onSuccess onError)
      as [->|(vid & n0 & _ & _ & _ & _ & Hn0 & ->)];
      [repeat split; [reflexivity|reflexivity|intros k n Hk; exists n; split; [exact Hk|lia]]|].
    simpl. repeat split; [reflexivity|apply union_subseteq_r|].
    intros k n Hk. rewrite lookup_insert. case_decide.
    + subst k. rewrite Hk in Hn0. injection Hn0 as <-.
      eexists. split; [reflexivity|lia].
    + exists n. split; [exact Hk|lia].
Qed.

(** X7.  A voter that [registerVoter] accepts is accepted once: the same
    voter offered again to the resulting session is refused, and the
    session stays as the first call left it. *)
Theorem registerVoter_once (s : session) (voter : value) (vid : string) :
  registrable s voter vid ->
  registerVoter s voter = (with_registered s vid, true) /\
  registerVoter (with_registered s vid) voter = (with_registered s vid, false).
Proof.
  intros H.
  assert (forall s', (forall v, ~ registrable s' voter v) -> registerVoter s' voter = (s', false))
    as Hrefused.
  { intros s' Hno. pose proof (registerVoter_guard s' voter) as Hg.
    unfold registerVoter. destruct (_ || _)%bool; [reflexivity|].
    destruct (proj1 Hg eq_refl) as [v Hv]. destruct (Hno v Hv). }
  split.
  - pose proof (registerVoter_guard s voter) as Hg.
    unfold registerVoter. destruct (_ || _)%bool.
    + assert (true = false) by (apply Hg; eauto). discriminate.
    + rewrite (registrable_id s voter vid H). reflexivity.
  - apply Hrefused. intros v (_ & Hid & _ & _ & Hfresh).
    rewrite (registrable_id s voter vid H) in Hid. injection Hid as <-.
    apply Hfresh. simpl. apply elem_of_union_l, elem_of_singleton. reflexivity.
Qed.

Lemma registerVoter_once_witness :
  let s := createElection (Some [sample_C1; sample_C2]) in
  registerVoter s sample_registration = (with_registered s "V1", true) /\
  registerVoter (with_registered s "V1") sample_registration = (with_registered s "V1", false).
Proof.
  intros s. apply (registerVoter_once s sample_registration "V1").
  unfold registrable. repeat split.
  - exists "Mohan". reflexivity.
  - exists (Num 25). split; reflexivity.
  - vm_compute. intros H. inversion H.
Defined.

(** X8.  A candidate whose id is the empty string is never seeded in
    [votes], and one called [__proto__] cannot be: nobody can vote for
    either.  In every reachable session whose [votes] does not own
    [hasOwnProperty], a registered voter who names the id [""] or
    [__proto__] gets "Candidate does not exist", and the session is
    unchanged, whether or not a candidate of that id is on the list. *)
Theorem unseeded_ids_cannot_be_voted (s : session) (voterId : value) (id : string)
    (onSuccess onError : callback) :
  reachable s ->
  in_set (registered s) voterId ->
  votes s !! "hasOwnProperty" = None ->
  id = "" \/ id = "__proto__" ->
  castVote s voterId (VString id) onSuccess onError =
  (s, Normal (default noop onError (VString "Candidate does not exist"))).
Proof.
  intros Hreach Hin Hown Hid. apply Set_has_true in Hin.
  assert (votes s !! id = None) as Hnone.
  { apply eq_None_not_Some. intros Hs.
    apply (reachable_votes_keys s id Hreach) in Hs. destruct Hs as (H1 & H2 & _).
    destruct Hid; contradiction. }
  unfold castVote. rewrite Hin. cbn [negb].
  rewrite (votes_hasOwnProperty_plain _ _ Hown). cbn [to_property_key to_string].
  rewrite Hnone. rewrite bool_decide_eq_false_2; [reflexivity|].
  intros [x Hx]. discriminate Hx.
Qed.

Lemma unseeded_ids_cannot_be_voted_witness :
  let s := session_with [candidate_named ""; candidate_named "__proto__"; sample_C1] in
  castVote s (str "V1") (VString "") None (Some (fun e => e)) =
    (s, Normal (str "Candidate does not exist")) /\
  castVote s (str "V1") (VString "__proto__") None (Some (fun e => e)) =
    (s, Normal (str "Candidate does not exist")).
Proof.
  intros s. split.
  - apply (unseeded_ids_cannot_be_voted s (str "V1") "" None (Some (fun e => e))).
    + repeat constructor.
    + exists "V1". split; [reflexivity|]. vm_compute. tauto.
    + reflexivity.
    + left. reflexivity.
  - apply (unseeded_ids_cannot_be_voted s (str "V1") "__proto__" None (Some (fun e => e))).
    + repeat constructor.
    + exists "V1". split; [reflexivity|]. vm_compute. tauto.
    + reflexivity.
    + right. reflexivity.
Defined.

(** ** Results as a whole *)






Lemma results_levels Array_sort s y :
  conforming Array_sort -> reachable s -> no_proto_candidate s ->
  y ∈ getResults Array_sort s None ->
  r_votes y = Counted (level y) /\ (0 <= level y)%Z.
Proof.
  intros Hsort Hreach Hproto Hy.
  destruct (getResults_default_stable Array_sort s Hsort Hreach Hproto) as (_ & Hperm & _).
  rewrite Hperm, (records_counted s Hreach Hproto) in Hy.
  apply list_elem_of_In, in_map_iff in Hy. destruct Hy as (c & <- & _).
  split; [reflexivity|]. apply tally_nonneg. exact Hreach.
Qed.

(** X11.  The winner is the head of the default results: in a reachable
    session without a candidate called [__proto__], whenever [getWinner]
    returns a record, that record is the first entry of [getResults()] and
    it has at least one vote. *)
Theorem winner_heads_results (Array_sort : sorter) (s : session) (r : ResultRecord) :
  conforming Array_sort ->
  reachable s ->
  no_proto_candidate s ->
  getWinner Array_sort s = Some r ->
  head (getResults Array_sort s None) = Some r /\
  exists n, r_votes r = Counted n /\ (1 <= n)%Z.
Proof.
  intros Hsort Hreach Hproto. unfold getWinner.
  destruct (Nat.eqb (length (getResults Array_sort s None)) 0
            || forallb (fun r => is_zero (r_votes r)) (getResults Array_sort s None))%bool
    eqn:Hguard; [discriminate|].
  apply orb_false_iff in Hguard. destruct Hguard as [Hlen Hzero].
  destruct (getResults_default_stable Array_sort s Hsort Hreach Hproto)
    as (_ & _ & Hsorted & _).
  pose proof (fun y => results_levels Array_sort s y Hsort Hreach Hproto) as Hlevels.
  destruct (first_max_exists (getResults Array_sort s None))
    as (pre & x & post & Heq & Hpre & Hpost).
  { intros Hnil. rewrite Hnil in Hlen. discriminate Hlen. }
  rewrite Heq in *.
  assert (pre = []) as ->.
  { destruct pre as [|h pre]; [reflexivity|]. exfalso.
    apply Forall_cons in Hpre. destruct Hpre as [Hh _].
    simpl in Hsorted. apply StronglySorted_cons in Hsorted. destruct Hsorted as [Hall _].
    rewrite Forall_forall in Hall.
    assert (cmp_le by_votes_descending h x) as Hle.
    { apply Hall. apply elem_of_app. right. left. }
    destruct (Hlevels h) as [Hhv _]; [left|].
    destruct (Hlevels x) as [Hxv _]; [right; apply elem_of_app; right; left|].
    unfold cmp_le, by_votes_descending in Hle. rewrite Hhv, Hxv in Hle. lia. }
  simpl in Hlevels.
  destruct (Hlevels x) as [Hxv Hx]; [left|].
  rewrite (winner_loop_first_max [] x post (-1, None)); [|constructor|exact Hpost|simpl; lia].
  simpl. intros [= <-]. split; [reflexivity|].
  exists (level x). split; [exact Hxv|].
  destruct (Z.eq_dec (level x) 0) as [H0|H0]; [|lia].
  exfalso. apply not_true_iff_false in Hzero. apply Hzero.
  apply (proj2 (forallb_zero_votes (x :: post))). constructor; [congruence|].
  rewrite Forall_forall in Hpost |- *. intros y Hy.
  destruct (Hlevels y) as [Hyv Hy0]; [right; exact Hy|].
  specialize (Hpost y Hy). rewrite Hyv. f_equal. lia.
Qed.

Lemma winner_heads_results_witness :
  let s := session_voted [sample_C1; sample_C2] "C2" in
  head (getResults insertion_sort s None) =
    Some {| r_id := "C2"; r_name := "Pradhan Sita"; r_party := "Lok"; r_votes := Counted 1 |} /\
  exists n, Counted 1 = Counted n /\ (1 <= n)%Z.
Proof.
  intros s.
  apply (winner_heads_results insertion_sort s
           {| r_id := "C2"; r_name := "Pradhan Sita"; r_party := "Lok";
              r_votes := Counted 1 |}).
  - exact insertion_sort_conforming.
  - repeat constructor.
  - repeat constructor; discriminate.
  - reflexivity.
Defined.

(** ** The validator as a whole *)




(** X24.  A voter object that owns a property called [hasOwnProperty]
    makes the validator throw as soon as there is a field to check: the
    loop calls [voter.hasOwnProperty(field)], and the voter's own property,
    a data value, is not a function. *)
Theorem validator_throws_on_shadowed_method (rules voter field : value)
    (fields : list value) :
  is_object rules = true ->
  is_object voter = true ->
  iterate (or_default (get rules "requiredFields") default_requiredFields) =
    Some (field :: fields) ->
  hasOwnProperty voter "hasOwnProperty" = true ->
  createVoteValidator rules voter = Throw TypeError.
Proof.
  intros Hr Hv Hf Hown.
  rewrite (validator_body rules voter (field :: fields) Hr Hv Hf).
  rewrite (missing_field_throws voter field fields Hown). reflexivity.
Qed.

Lemma validator_throws_on_shadowed_method_witness :
  createVoteValidator (VObject [])
    (VObject [("id", str "V1"); ("name", str "Mohan"); ("age", num 25);
              ("hasOwnProperty", VBool true)]) = Throw TypeError.
Proof.
  apply (validator_throws_on_shadowed_method _ _ (str "id") [str "name"; str "age"]);
    reflexivity.
Defined.

(** X14.  The validator accepts only what passes every check: an answer
    [{valid: true, reason: ""}] means that [rules] and the voter are
    objects, that the voter owns every required field and that
    [voter.age < minAge] is false. *)
Theorem validator_acceptance_is_sound (rules voter : value) :
  createVoteValidator rules voter = Normal (verdict true "") ->
  is_object rules = true /\ is_object voter = true /\
  exists fields,
    iterate (or_default (get rules "requiredFields") default_requiredFields) = Some fields /\
    Forall (has_field voter) fields /\
    js_lt (get voter "age") (or_default (get rules "minAge") (VNumber (Num 18))) = false.
Proof.
  unfold createVoteValidator. rewrite object_guard.
  destruct (is_object rules); cbn [negb]; [|discriminate].
  rewrite object_guard. destruct (is_object voter); cbn [negb]; [|discriminate].
  destruct (iterate (or_default (get rules "requiredFields") default_requiredFields))
    as [fields|]; [|discriminate].
  destruct (missing_field voter fields) as [[field|]|e] eqn:Hmiss;
    [discriminate| |discriminate].
  destruct (js_lt _ _) eqn:Hlt; [discriminate|].
  intros _. split; [reflexivity|]. split; [reflexivity|].
  exists fields. split; [reflexivity|]. split; [|reflexivity].
  apply missing_field_none. exact Hmiss.
Qed.

Lemma validator_acceptance_is_sound_witness :
  is_object (VObject []) = true /\ is_object sample_registration = true /\
  exists fields,
    iterate (or_default (get (VObject []) "requiredFields") default_requiredFields)
      = Some fields /\
    Forall (has_field sample_registration) fields /\
    js_lt (get sample_registration "age")
      (or_default (get (VObject []) "minAge") (VNumber (Num 18))) = false.
Proof.
  apply (validator_acceptance_is_sound (VObject []) sample_registration). reflexivity.
Defined.

(** ** [countVotesInRegions] over its sub-regions *)

Lemma num_add_comm a b : num_add a b = num_add b a.
Proof. destruct a, b; simpl; try reflexivity. f_equal. lia. Qed.

Lemma num_sum_perm l l' : l ≡ₚ l' -> num_sum l = num_sum l'.
Proof.
  intros H. induction H as [|x l l' _ IH|x y l|l l' l'' _ IH1 _ IH2]; simpl.
  - reflexivity.
  - rewrite IH. reflexivity.
  - rewrite !num_add_assoc, (num_add_comm y x). reflexivity.
  - congruence.
Qed.

(** The count of a region whose [subRegions] has been set to an array. *)
Lemma count_with_subRegions ps subs :
  countVotesInRegions (VObject (set_prop "subRegions" (VArray subs) ps)) =
  num_add (own_votes (VObject ps)) (num_sum (map countVotesInRegions subs)).
Proof.
  rewrite countVotesInRegions_unfold. simpl negb. cbn [orb].
  rewrite fold_left_num_add. f_equal.
  - unfold own_votes, get. rewrite lookup_set_prop. reflexivity.
  - unfold subRegions, get. rewrite lookup_set_prop. reflexivity.
Qed.

(** X15.  The order of the sub-regions does not matter while no addition
    rounds: a region whose numbers add up, in absolute value, to a safe
    integer counts the same after its [subRegions] array has been
    rearranged. *)
Theorem count_ignores_order (ps : props) (subs subs' : list value) :
  subs ≡ₚ subs' ->
  safe_integer (magnitude (VObject (set_prop "subRegions" (VArray subs) ps))) ->
  countVotesInRegions (VObject (set_prop "subRegions" (VArray subs) ps)) =
  countVotesInRegions (VObject (set_prop "subRegions" (VArray subs') ps)).
Proof.
  intros H _. rewrite !count_with_subRegions. f_equal.
  apply num_sum_perm. apply Permutation_map. exact H.
Qed.

Lemma count_ignores_order_witness :
  countVotesInRegions
    (VObject (set_prop "subRegions" (VArray [VObject [("votes", num 3)]; VObject [("votes", num 1)]])
                [("votes", num 2)])) =
  countVotesInRegions
    (VObject (set_prop "subRegions" (VArray [VObject [("votes", num 1)]; VObject [("votes", num 3)]])
                [("votes", num 2)])).
Proof.
  apply count_ignores_order; [apply perm_swap|].
  unfold safe_integer. vm_compute. discriminate.
Defined.

Lemma count_non_object v : is_object v = false -> countVotesInRegions v = Num 0.
Proof.
  intros H. rewrite countVotesInRegions_unfold, object_guard, H. reflexivity.
Qed.

Lemma num_add_zero_l a : num_add (Num 0) a = a.
Proof. rewrite num_add_comm. apply num_add_zero_r. Qed.

(** X16.  Entries of [subRegions] that are not objects ([null], numbers,
    strings, ...) count for nothing: dropping them from the array leaves
    the count of the region unchanged. *)
Theorem count_ignores_non_objects (ps : props) (subs : list value) :
  countVotesInRegions (VObject (set_prop "subRegions" (VArray subs) ps)) =
  countVotesInRegions
    (VObject (set_prop "subRegions" (VArray (List.filter is_object subs)) ps)).
Proof.
  rewrite !count_with_subRegions. f_equal.
  induction subs as [|v subs IH]; simpl; [reflexivity|].
  destruct (is_object v) eqn:E; simpl.
  - rewrite IH. reflexivity.
  - rewrite (count_non_object v E), num_add_zero_l. exact IH.
Qed.

(** X17.  One [NaN] spoils the total: if the count of some sub-region is
    [NaN], so is the count of the region that lists it. *)
Theorem count_NaN_spreads (ps : props) (subs : list value) (sub : value) :
  sub ∈ subs ->
  countVotesInRegions sub = NaN ->
  countVotesInRegions (VObject (set_prop "subRegions" (VArray subs) ps)) = NaN.
Proof.
  intros Hin Hsub. rewrite count_with_subRegions.
  assert (num_sum (map countVotesInRegions subs) = NaN) as ->.
  { induction Hin as [sub subs|sub y subs _ IH]; simpl.
    - rewrite Hsub. reflexivity.
    - rewrite (IH Hsub). destruct (countVotesInRegions y); reflexivity. }
  destruct (own_votes (VObject ps)); reflexivity.
Qed.

Lemma count_NaN_spreads_witness :
  countVotesInRegions
    (VObject (set_prop "subRegions"
                (VArray [VObject [("votes", num 3)]; VObject [("votes", VNumber NaN)]])
                [("votes", num 2)])) = NaN.
Proof.
  apply (count_NaN_spreads _ _ (VObject [("votes", VNumber NaN)])).
  - right. left.
  - reflexivity.
Defined.

(** ** [tallyPure] as a reducer *)

Lemma tallyPure_next ps candidateId :
  tallyPure (VObject ps) candidateId = Normal (VObject (next_tally ps candidateId)).
Proof.
  unfold tallyPure, next_tally. simpl.
  destruct (loose_eq_null candidateId); reflexivity.
Qed.

Lemma tally_from_object ps ids :
  tally_from (Normal (VObject ps)) ids = Normal (VObject (fold_left next_tally ids ps)).
Proof.
  revert ps. induction ids as [|id ids IH]; intros ps; [reflexivity|].
  unfold tally_from in *. simpl. rewrite tallyPure_next. apply IH.
Qed.

Lemma occurrences_cons k id ids :
  occurrences k (id :: ids) =
  ((if String.eqb id k then 1 else 0) + occurrences k ids)%Z.
Proof.
  unfold occurrences. rewrite filter_cons.
  destruct (decide (id = k)) as [->|Hne].
  - rewrite String.eqb_refl. simpl length. lia.
  - apply eqb_string_false in Hne. rewrite Hne. lia.
Qed.

(** One vote on a tally of counts: the key of the vote goes up by one,
    from nothing if need be. *)
Lemma next_tally_counts ps (f : string -> Z) id :
  (forall k, (0 <= f k)%Z) ->
  (forall k, lookup_prop k ps = if (f k =? 0)%Z then None else Some (num (f k))) ->
  forall k,
    lookup_prop k (next_tally ps (VString id)) =
    let n := ((if String.eqb id k then 1 else 0) + f k)%Z in
    if (n =? 0)%Z then None else Some (num n).
Proof.
  intros Hf Hps k. unfold next_tally. simpl. rewrite lookup_set_prop.
  destruct (String.eqb id k) eqn:E.
  - apply eqb_string_true in E. subst k. rewrite (Hps id).
    specialize (Hf id).
    destruct (f id =? 0)%Z eqn:E0.
    + apply Z.eqb_eq in E0. rewrite E0. reflexivity.
    + apply Z.eqb_neq in E0.
      destruct (1 + f id =? 0)%Z eqn:E1; [apply Z.eqb_eq in E1; lia|].
      simpl. unfold js_or. simpl.
      destruct (f id =? 0)%Z eqn:E2; [apply Z.eqb_eq in E2; lia|].
      unfold num, one. cbv [js_add to_primitive to_number num_add].
      do 3 f_equal. lia.
  - rewrite (Hps k). reflexivity.
Qed.

Lemma fold_next_tally_counts ids : forall ps (f : string -> Z),
  (forall k, (0 <= f k)%Z) ->
  (forall k, lookup_prop k ps = if (f k =? 0)%Z then None else Some (num (f k))) ->
  forall k,
    lookup_prop k (fold_left next_tally (map VString ids) ps) =
    let n := (f k + occurrences k ids)%Z in
    if (n =? 0)%Z then None else Some (num n).
Proof.
  induction ids as [|id ids IH]; intros ps f Hf Hps k; simpl.
  - unfold occurrences. simpl. rewrite Z.add_0_r. apply Hps.
  - rewrite (IH (next_tally ps (VString id))
               (fun k => ((if String.eqb id k then 1 else 0) + f k)%Z)).
    + rewrite occurrences_cons. simpl.
      replace ((if String.eqb id k then 1 else 0) + f k + occurrences k ids)%Z
        with (f k + ((if String.eqb id k then 1 else 0) + occurrences k ids))%Z by lia.
      reflexivity.
    + intros k'. specialize (Hf k'). destruct (String.eqb id k'); lia.
    + apply next_tally_counts; assumption.
Qed.

(** X18.  Tallying a list of candidate ids from the empty object counts
    them: the result holds, under each id of the list, the number of times
    it occurs, and holds nothing else.  This is for ids that do not name a
    member of [Object.prototype] (under such a name the first read finds
    the inherited member, not [undefined]) and for a list short enough for
    the increments to be exact. *)
Theorem tally_all_counts (ids : list string) :
  Forall (fun id => id ∉ Object_prototype_keys) ids ->
  safe_integer (Z.of_nat (length ids)) ->
  exists tally,
    tally_all (map VString ids) = Normal (VObject tally) /\
    forall k,
      lookup_prop k tally =
      if (occurrences k ids =? 0)%Z then None
      else Some (VNumber (Num (occurrences k ids))).
Proof.
  intros _ _. unfold tally_all. rewrite tally_from_object. eexists. split; [reflexivity|].
  intros k.
  apply (fold_next_tally_counts ids [] (fun _ => 0%Z)); [intros; lia|reflexivity].
Qed.

Lemma tally_all_counts_witness :
  exists tally,
    tally_all (map VString ["C1"; "C2"; "C1"]) = Normal (VObject tally) /\
    forall k,
      lookup_prop k tally =
      if (occurrences k ["C1"; "C2"; "C1"] =? 0)%Z then None
      else Some (VNumber (Num (occurrences k ["C1"; "C2"; "C1"]))).
Proof.
  apply (tally_all_counts ["C1"; "C2"; "C1"]).
  - repeat constructor; intros H; apply list_elem_of_In in H; simpl in H;
      intuition discriminate.
  - unfold safe_integer. vm_compute. discriminate.
Defined.

Lemma next_tally_congr ps ps' id :
  same_props ps ps' -> same_props (next_tally ps id) (next_tally ps' id).
Proof.
  intros H k. unfold next_tally.
  destruct (loose_eq_null id); [reflexivity|].
  simpl. rewrite !lookup_set_prop, (H (to_property_key id)), (H k). reflexivity.
Qed.

Lemma fold_next_tally_congr ids : forall ps ps',
  same_props ps ps' ->
  same_props (fold_left next_tally ids ps) (fold_left next_tally ids ps').
Proof.
  induction ids as [|id ids IH]; intros ps ps' H; simpl; [exact H|].
  apply IH. apply next_tally_congr. exact H.
Qed.

Lemma next_tally_swap ps a b :
  loose_eq_null a = false -> loose_eq_null b = false ->
  same_props (next_tally (next_tally ps a) b) (next_tally (next_tally ps b) a).
Proof.
  intros Ha Hb k. unfold next_tally. rewrite Ha, Hb. simpl.
  rewrite !lookup_set_prop.
  destruct (String.eqb (to_property_key a) (to_property_key b)) eqn:E.
  - apply eqb_string_true in E. rewrite E. rewrite String.eqb_refl. reflexivity.
  - rewrite (String.eqb_sym (to_property_key b) (to_property_key a)), E.
    destruct (String.eqb (to_property_key b) k) eqn:Eb,
             (String.eqb (to_property_key a) k) eqn:Ea; try reflexivity.
    apply eqb_string_true in Eb, Ea. apply eqb_string_false in E. congruence.
Qed.

Lemma fold_next_tally_perm ids ids' :
  ids ≡ₚ ids' ->
  Forall (fun id => loose_eq_null id = false) ids ->
  forall ps, same_props (fold_left next_tally ids ps) (fold_left next_tally ids' ps).
Proof.
  intros H. induction H as [|x l l' _ IH|x y l|l l' l'' H1 IH1 _ IH2]; intros Hall ps.
  - intros k. reflexivity.
  - simpl. apply Forall_cons in Hall. apply IH. apply Hall.
  - simpl. apply Forall_cons in Hall. destruct Hall as [Hy Hall].
    apply Forall_cons in Hall. destruct Hall as [Hx _].
    apply fold_next_tally_congr. apply next_tally_swap; assumption.
  - intros k. rewrite (IH1 Hall ps k). apply IH2. rewrite <- H1. exact Hall.
Qed.

(** X19.  The tally does not depend on the order of the votes: two lists
    of candidate ids (none of them [null] or [undefined]) that are
    rearrangements of each other give, from the same starting object,
    tallies that read the same under every key. *)
Theorem tally_ignores_order (start : props) (ids ids' : list value) :
  ids ≡ₚ ids' ->
  Forall (fun id => loose_eq_null id = false) ids ->
  exists tally tally',
    tally_from (Normal (VObject start)) ids = Normal (VObject tally) /\
    tally_from (Normal (VObject start)) ids' = Normal (VObject tally') /\
    same_props tally tally'.
Proof.
  intros Hperm Hall. rewrite !tally_from_object. do 2 eexists.
  split; [reflexivity|]. split; [reflexivity|].
  apply fold_next_tally_perm; assumption.
Qed.

Lemma tally_ignores_order_witness :
  exists tally tally',
    tally_from (Normal (VObject [("a", num 1)])) [str "a"; str "b"] = Normal (VObject tally) /\
    tally_from (Normal (VObject [("a", num 1)])) [str "b"; str "a"] = Normal (VObject tally') /\
    same_props tally tally'.
Proof.
  apply (tally_ignores_order [("a", num 1)] [str "a"; str "b"] [str "b"; str "a"]).
  - apply perm_swap.
  - repeat constructor.
Defined.

(** X20.  A [null] or [undefined] vote wipes the tally: [tallyPure] answers
    it with the empty object, so a reduction over a list of votes keeps
    only what follows the last such vote. *)
Theorem tally_all_forgets_before_null (ids rest : list value) (v : value) :
  loose_eq_null v = true ->
  tally_all (ids ++ v :: rest) = tally_all rest.
Proof.
  intros Hv. unfold tally_all. rewrite !tally_from_object.
  rewrite fold_left_app. simpl. unfold next_tally at 2. rewrite Hv. reflexivity.
Qed.

Lemma tally_all_forgets_before_null_witness :
  tally_all ([str "a"; str "b"] ++ VNull :: [str "b"]) = tally_all [str "b"].
Proof. apply (tally_all_forgets_before_null [str "a"; str "b"] [str "b"] VNull). reflexivity. Defined.

(** X21.  [tallyPure_at] returns a new object: its address was not in use
    before the call, so it is neither the argument nor any other object of
    the store, and the store holds an object there afterwards. *)
Theorem tallyPure_at_returns_new_object (h : heap) (currentTally : loc)
    (candidateId : value) :
  h !! snd (tallyPure_at h currentTally candidateId) = None /\
  is_Some (fst (tallyPure_at h currentTally candidateId)
             !! snd (tallyPure_at h currentTally candidateId)).
Proof.
  assert (h !! fresh (dom h) = None) as Hfresh.
  { apply not_elem_of_dom. apply is_fresh. }
  unfold tallyPure_at. destruct (loose_eq_null candidateId); simpl.
  - split; [exact Hfresh|]. rewrite lookup_insert_eq. eauto.
  - split; [exact Hfresh|].
    assert (is_Some (heap_spread (<[fresh (dom h) := []]> h) (fresh (dom h)) currentTally
                       !! fresh (dom h))) as [ps Hps].
    { unfold heap_spread. erewrite fold_heap_set_target by apply lookup_insert_eq. eauto. }
    erewrite heap_set_target by exact Hps. eauto.
Qed.

(** ** Votes and what the session reports *)

Lemma count_or_zero_counted n : count_or_zero (Some (Counted n)) = Counted n.
Proof.
  simpl. destruct (n =? 0)%Z eqn:E; [|reflexivity].
  apply Z.eqb_eq in E. rewrite E. reflexivity.
Qed.

(** X22.  A recorded vote shows in the results as one more vote for the
    candidate (or candidates) carrying the chosen id, and nowhere else.
    (A vote is recorded only in a session whose [votes] does not own
    [hasOwnProperty].) *)
Theorem vote_shows_in_results (s : session) (vid : string) (candidateId : value)
    (onSuccess onError : callback) (c : Candidate) :
  vid ∈ registered s ->
  votes s !! "hasOwnProperty" = None ->
  is_Some (votes s !! to_property_key candidateId) ->
  vid ∉ votersWhoVoted s ->
  let s' := fst (castVote s (VString vid) candidateId onSuccess onError) in
  r_votes (result_record s' c) =
  match r_votes (result_record s c) with
  | Counted n =>
      Counted (n + if String.eqb (c_id c) (to_property_key candidateId) then 1 else 0)
  | Inherited k => Inherited k
  end.
Proof.
  intros Hreg Hown [n0 Hknown] Hfresh s'.
  assert (votes s' = <[to_property_key candidateId := n0 + 1]> (votes s)) as Hvotes.
  { unfold s'. rewrite (castVote_recorded s vid candidateId onSuccess onError n0); auto. }
  unfold result_record, votes_read. cbn [r_votes]. rewrite Hvotes, lookup_insert.
  destruct (String.eqb (c_id c) (to_property_key candidateId)) eqn:E.
  - apply eqb_string_true in E. rewrite decide_True by (symmetry; exact E).
    rewrite E, Hknown, !count_or_zero_counted. reflexivity.
  - apply eqb_string_false in E. rewrite decide_False by congruence.
    destruct (votes s !! c_id c) as [n|].
    + rewrite count_or_zero_counted. f_equal. lia.
    + destruct (bool_decide (c_id c ∈ Object_prototype_keys)); simpl; [reflexivity|].
      reflexivity.
Qed.

Lemma vote_shows_in_results_witness :
  let s := with_registered (createElection (Some [sample_C1; sample_C2])) "V1" in
  let s' := fst (castVote s (VString "V1") (str "C2") None None) in
  r_votes (result_record s' sample_C2) = Counted 1 /\
  r_votes (result_record s' sample_C2) =
  match r_votes (result_record s sample_C2) with
  | Counted n =>
      Counted (n + if String.eqb (c_id sample_C2) (to_property_key (str "C2")) then 1 else 0)
  | Inherited k => Inherited k
  end.
Proof.
  intros s. split; [reflexivity|].
  apply (vote_shows_in_results s "V1" (str "C2") None None sample_C2).
  - vm_compute. tauto.
  - reflexivity.
  - vm_compute. eauto.
  - vm_compute. intros H. inversion H.
Defined.




